(** * ruc: run a program under control

    A shallow embedding of [main.go]: the supervision cycle [run] (both
    revisions kept in the source), the restart loop of [main], and the
    goroutine that relays SIGTERM/SIGINT.

    The Go program talks to a clock, to a child process and to the
    scheduler.  They are made explicit here:
    - time is an integer count of nanoseconds ([time.Duration] is an
      [int64]); statements take no time, only the blocking receives do;
    - a child process is described by when it exits if left alone and by
      how it reacts to SIGTERM and SIGKILL; the goroutine that runs
      [done <- cmd.Wait()] delivers the result at the instant of the exit;
    - a [context.Context] is the instant at which its [Done] channel is
      closed, if ever;
    - the pseudo-random choice of [select] among the ready cases is read
      from a list of numbers carried by the world. *)

From Stdlib Require Import ZArith List String Bool Lia.
Import ListNotations.
Local Open Scope string_scope.
Local Open Scope Z_scope.

(** ** Data *)

Inductive Signal := SIGINT | SIGKILL | SIGTERM.

(** [%v] of a [syscall.Signal] *)
Definition signame (s : Signal) : string :=
  match s with
  | SIGINT => "interrupt"
  | SIGKILL => "killed"
  | SIGTERM => "terminated"
  end.

(** How a process ended, as the operating system reports it. *)
Inductive ExitStatus :=
| Exited (code : Z)
| Signaled (sig : Signal).

(** The values of Go's [error] that the program can meet. *)
Inductive error :=
| ErrLaunch (msg : string)        (* cmd.Start failed: not found, permission, ... *)
| ErrExit (st : ExitStatus)       (* *exec.ExitError from cmd.Wait *)
| ErrProcessDone                  (* os: process already finished *)
| ErrContext.                     (* ctx.Err() of a context that is done *)

(** [cmd.Wait()]: nil exactly for exit status 0, an [*exec.ExitError]
    otherwise. *)
Definition wait_result (st : ExitStatus) : option error :=
  match st with
  | Exited 0 => None
  | _ => Some (ErrExit st)
  end.

(** The behaviour of the program named by [args]. Delays are counted from
    the launch, respectively from the delivery of the signal. *)
Record Child := {
  start_err : option string;               (* Some: cmd.Start() fails *)
  self_exit : option (nat * ExitStatus);   (* exits by itself after a delay *)
  on_term   : option (nat * ExitStatus);   (* None: SIGTERM is ignored *)
  on_kill   : option (nat * ExitStatus)    (* None: the OS cannot kill it *)
}.

Definition react (c : Child) (s : Signal) : option (nat * ExitStatus) :=
  match s with
  | SIGTERM => on_term c
  | SIGKILL => on_kill c
  | SIGINT => None
  end.

(** What the supervisor does that can be seen from outside. *)
Inductive Event :=
| EvStart (t : Z)                   (* a child was started *)
| EvSignal (t : Z) (s : Signal)     (* a signal reached the child *)
| EvLog (t : Z) (msg : string)      (* a line written by log.Printf *)
| EvFatal (t : Z) (err : error).    (* the line written by log.Fatal(err) *)

(** A context is the instant at which it becomes done. *)
Definition Context := option Z.

Definition Background : Context := None.

(** Is [ctx.Done()] closed at instant [t]? *)
Definition ctx_done (ctx : Context) (t : Z) : bool :=
  match ctx with
  | Some k => k <=? t
  | None => false
  end.

Record World := {
  now     : Z;                          (* the clock *)
  picks   : list nat;                   (* select's random choices *)
  child   : Child;                      (* the program that args names *)
  exit_at : option (Z * ExitStatus);    (* when cmd.Wait() returns, and what *)
  watch   : Context;                    (* exec.CommandContext's kill watcher *)
  trace   : list Event
}.

Definition set_now (t : Z) (w : World) : World :=
  {| now := t; picks := picks w; child := child w; exit_at := exit_at w;
     watch := watch w; trace := trace w |}.

Definition set_picks (p : list nat) (w : World) : World :=
  {| now := now w; picks := p; child := child w; exit_at := exit_at w;
     watch := watch w; trace := trace w |}.

Definition set_child (c : Child) (w : World) : World :=
  {| now := now w; picks := picks w; child := c; exit_at := exit_at w;
     watch := watch w; trace := trace w |}.

Definition set_exit (e : option (Z * ExitStatus)) (w : World) : World :=
  {| now := now w; picks := picks w; child := child w; exit_at := e;
     watch := watch w; trace := trace w |}.

Definition set_watch (k : Context) (w : World) : World :=
  {| now := now w; picks := picks w; child := child w; exit_at := exit_at w;
     watch := k; trace := trace w |}.

Definition emit (e : Event) (w : World) : World :=
  {| now := now w; picks := picks w; child := child w; exit_at := exit_at w;
     watch := watch w; trace := trace w ++ [e] |}.

(** ** The monad of the main goroutine

    A statement either completes, panics, or blocks for ever. *)

Inductive Res (A : Type) :=
| Ok (a : A) (w : World)
| Panic (msg : string) (w : World)
| Block (w : World).
Arguments Ok {A} a w.
Arguments Panic {A} msg w.
Arguments Block {A} w.

Definition M (A : Type) := World -> Res A.

Definition ret {A} (a : A) : M A := fun w => Ok a w.

Definition bind {A B} (m : M A) (k : A -> M B) : M B :=
  fun w =>
    match m w with
    | Ok a w' => k a w'
    | Panic msg w' => Panic msg w'
    | Block w' => Block w'
    end.

Notation "x <- m ;; k" := (bind m (fun x => k))
  (at level 61, m at next level, right associativity).
Notation "m ;;; k" := (bind m (fun _ => k))
  (at level 61, right associativity).

Definition final {A} (r : Res A) : World :=
  match r with Ok _ w => w | Panic _ w => w | Block w => w end.

(** ** The child process and the signals *)

Definition alive_at (e : option (Z * ExitStatus)) (t : Z) : bool :=
  match e with
  | None => true
  | Some (x, _) => t <? x
  end.

(** Of two scheduled exits the first one happens. *)
Definition earlier (a b : option (Z * ExitStatus)) : option (Z * ExitStatus) :=
  match a, b with
  | None, _ => b
  | _, None => a
  | Some (ta, _), Some (tb, _) => if tb <? ta then b else a
  end.

Definition after (t : Z) (r : option (nat * ExitStatus)) : option (Z * ExitStatus) :=
  match r with
  | None => None
  | Some (d, st) => Some (t + Z.of_nat d, st)
  end.

(** Signal [s] reaches the live child at instant [t]. *)
Definition deliver (t : Z) (s : Signal) (w : World) : World :=
  emit (EvSignal t s)
       (set_exit (earlier (exit_at w) (after t (react (child w) s))) w).

(** The goroutine that [exec.CommandContext] starts: when the context is
    done before the command has finished, it calls [Process.Kill].
    [settle t] lets it run if its context is done by [t]. *)
Definition settle (t : Z) (w : World) : World :=
  match watch w with
  | None => w
  | Some k =>
      if k <=? t then
        if alive_at (exit_at w) k
        then deliver k SIGKILL (set_watch None w)
        else set_watch None w
      else w
  end.

(** The watcher has its turn whenever its context is done. *)
Definition expire (w : World) : World :=
  match watch w with
  | None => w
  | Some k => settle k w
  end.

(** The exit that [cmd.Wait()] will report if the main goroutine sends
    nothing more. *)
Definition projected_exit (w : World) : option (Z * ExitStatus) :=
  match watch w with
  | None => exit_at w
  | Some k =>
      if alive_at (exit_at w) k
      then earlier (exit_at w) (after k (on_kill (child w)))
      else exit_at w
  end.

(** ** Primitives used by [run] *)

(** [time.NewTicker(d)]: panics if [d <= 0]; the first tick is due [d]
    after the call and stays in the channel's buffer once sent.  The
    ticker is the instant of that first tick: [run] receives at most once
    from each of its tickers, and the deferred [Stop] only releases them. *)
Definition NewTicker (d : Z) : M Z :=
  fun w =>
    if d <=? 0 then Panic "non-positive interval for NewTicker" w
    else Ok (now w + d) w.

Definition log_Printf (msg : string) : M unit :=
  fun w => Ok tt (emit (EvLog (now w) msg) w).

(** The world once the program runs: its own exit is scheduled, and the
    watcher of [exec.CommandContext] is armed if there is one. *)
Definition started (k : Context) (w : World) : World :=
  emit (EvStart (now w))
       (set_watch k (set_exit (after (now w) (self_exit (child w))) w)).

(** [exec.Command(args...)] with [Setpgid], then [cmd.Start()]. *)
Definition cmd_Start : M (option error) :=
  fun w =>
    match start_err (child w) with
    | Some msg => Ok (Some (ErrLaunch msg)) w
    | None => Ok None (started None w)
    end.

(** [exec.CommandContext(ctx, args...)], then [cmd.Start()].  [Start]
    first returns the error that [exec.Command] met when it looked the
    program up (the launch error of the model, as for a command that is
    not in [$PATH]); only then does it look at the context, and give up
    with [ctx.Err()] when it is already done. *)
Definition cmd_Start_ctx (ctx : Context) : M (option error) :=
  fun w =>
    match start_err (child w) with
    | Some msg => Ok (Some (ErrLaunch msg)) w
    | None =>
        if ctx_done ctx (now w) then Ok (Some ErrContext) w
        else Ok None (started ctx w)
    end.

(** [cmd.Process.Signal(s)]: an error, and nothing sent, once the process
    has been waited for. *)
Definition Process_Signal (s : Signal) : M (option error) :=
  fun w =>
    let w1 := settle (now w) w in
    if alive_at (exit_at w1) (now w1)
    then Ok None (deliver (now w1) s w1)
    else Ok (Some ErrProcessDone) w1.

(** The cases of a [select]. *)
Inductive Case :=
| CaseCtx (ctx : Context)     (* <-ctx.Done() *)
| CaseDone                    (* err := <-done *)
| CaseTick (tk : Z).          (* <-t.C *)

Inductive Sel :=
| SelCtx
| SelDone (err : option error)
| SelTick.

(** The instant from which a case can proceed. *)
Definition ready_time (w : World) (c : Case) : option Z :=
  match c with
  | CaseCtx ctx => ctx
  | CaseDone => option_map fst (projected_exit w)
  | CaseTick tk => Some tk
  end.

Definition min_opt (a b : option Z) : option Z :=
  match a, b with
  | None, _ => b
  | _, None => a
  | Some x, Some y => Some (Z.min x y)
  end.

Definition first_ready (w : World) (cs : list Case) : option Z :=
  fold_right (fun c acc => min_opt (ready_time w c) acc) None cs.

Definition is_ready (w : World) (c : Case) : bool :=
  match ready_time w c with
  | Some t => t <=? now w
  | None => false
  end.

Definition received (w : World) (c : Case) : Sel :=
  match c with
  | CaseCtx _ => SelCtx
  | CaseDone =>
      SelDone (match exit_at w with
               | Some (_, st) => wait_result st
               | None => None
               end)
  | CaseTick _ => SelTick
  end.

Definition next_pick (w : World) : nat := hd 0%nat (picks w).

(** The main goroutine sleeps until instant [t], or not at all if [t] is
    past. *)
Definition wake (t : Z) (w : World) : World :=
  settle (Z.max (now w) t) (set_now (Z.max (now w) t) w).

(** One of the cases that can proceed, chosen at random when there are
    several. *)
Definition choose (cs : list Case) : M Sel :=
  fun w =>
    match filter (is_ready w) cs with
    | [] => Block (expire w)
    | c :: rest =>
        Ok (received w
              (nth (Nat.modulo (next_pick w) (S (List.length rest)))
                   (c :: rest) c))
           (set_picks (tl (picks w)) w)
    end.

(** [select { ... }] without a default: sleep until the first instant at
    which a case can proceed, then take one of the cases that can.  When no
    case ever can, the goroutine sleeps for ever. *)
Definition select (cs : list Case) : M Sel :=
  fun w =>
    match first_ready w cs with
    | None => Block (expire w)
    | Some t => choose cs (wake t w)
    end.

(** [<-done] on its own. *)
Definition recv_done : M (option error) :=
  fun w =>
    match select [CaseDone] w with
    | Ok (SelDone err) w' => Ok err w'
    | Ok _ w' => Block w'
    | Panic msg w' => Panic msg w'
    | Block w' => Block w'
    end.

(** ** [run], current revision (main.go, second file) *)

Definition msg_term : string := "Failed to send SIGTERM: os: process already finished".
Definition msg_kill : string := "Failed to send SIGKILL: os: process already finished".

(** [if err := cmd.Process.Signal(s); err != nil { log.Printf(...) }] *)
Definition signal_or_log (s : Signal) (msg : string) : M unit :=
  err <- Process_Signal s ;;
  match err with
  | Some _ => log_Printf msg
  | None => ret tt
  end.

(** kill program; wait for program to exit *)
Definition killing : M (option error) :=
  signal_or_log SIGKILL msg_kill ;;;
  recv_done.

(** ask program to exit; wait for program to exit, or for graceT to tick *)
Definition terminating (grace : Z) : M (option error) :=
  signal_or_log SIGTERM msg_term ;;;
  graceT <- NewTicker grace ;;
  s <- select [CaseDone; CaseTick graceT] ;;
  match s with
  | SelDone err => ret err
  | _ => killing
  end.

(** wait for ctx to be canceled, program to exit, or for runT to tick *)
Definition running (ctx : Context) (runT grace : Z) : M (option error) :=
  s <- select [CaseCtx ctx; CaseDone; CaseTick runT] ;;
  match s with
  | SelDone err => ret err
  | _ => terminating grace
  end.

Definition run (ctx : Context) (run grace : Z) : M (option error) :=
  runT <- NewTicker run ;;
  err <- cmd_Start ;;
  match err with
  | Some e => ret (Some e)
  | None => running ctx runT grace
  end.

(** ** [main]'s loop

    [for { if err := run(ctx, *runF, *graceF, flag.Args()); err != nil {
    log.Fatal(err) } }].  The loop has no exit of its own, so it is run
    against the list of the successive launches of the program: one
    behaviour of the child per cycle.  [ctx] is the context created by
    [context.WithCancel(context.Background())]; its instant is the one at
    which the relay goroutine calls [cancel()]. *)

Inductive MainRes :=
| Exit (code : Z) (err : error) (w : World)   (* log.Fatal(err): status 1 *)
| Crash (msg : string) (w : World)            (* panic in the main goroutine *)
| Hang (w : World)                            (* blocked for ever *)
| Loop (w : World).                           (* still looping *)

Fixpoint main_loop (ctx : Context) (runF graceF : Z) (launches : list Child)
    (w : World) : MainRes :=
  match launches with
  | [] => Loop w
  | c :: rest =>
      match run ctx runF graceF (set_child c w) with
      | Ok None w' => main_loop ctx runF graceF rest w'
      | Ok (Some e) w' => Exit 1 e (emit (EvFatal (now w') e) w')
      | Panic msg w' => Crash msg w'
      | Block w' => Hang w'
      end
  end.

Definition main_world (r : MainRes) : World :=
  match r with
  | Exit _ _ w => w
  | Crash _ w => w
  | Hang w => w
  | Loop w => w
  end.

(** ** [run], earlier revision (main.go, first file) *)

(** wait for program to exit or for t to tick; signal program to exit;
    wait for program to exit from SIGTERM or from SIGKILL from the ctx *)
Definition run_v1 (ctx : Context) (run : Z) : M (option error) :=
  t <- NewTicker run ;;
  err <- cmd_Start_ctx ctx ;;
  match err with
  | Some e => ret (Some e)
  | None =>
      s <- select [CaseDone; CaseTick t] ;;
      match s with
      | SelDone err => ret err
      | _ => signal_or_log SIGTERM msg_term ;;; recv_done
      end
  end.

(** [time.Duration] addition is [int64] addition. *)
Definition wrap64 (z : Z) : Z := (z + 2 ^ 63) mod 2 ^ 64 - 2 ^ 63.

(** [context.WithTimeout(parent, d)] *)
Definition WithTimeout (parent : Context) (d : Z) : M Context :=
  fun w => Ok (min_opt parent (Some (now w + d))) w.

(** One turn of the earlier [main]'s loop, up to the return of [run]:
    what remains of it is [log.Fatal(err)] or [cancel()], which releases
    the timer of a context whose command has finished. *)
Definition cycle_v1 (mainCtx : Context) (runF graceF : Z) : M (option error) :=
  log_Printf "Starting..." ;;;
  ctx <- WithTimeout mainCtx (wrap64 (runF + graceF)) ;;
  run_v1 ctx runF.

(** ** What is compared between executions *)

Definition is_signal (e : Event) : bool :=
  match e with EvSignal _ _ => true | _ => false end.

Definition signals (w : World) : list Event := filter is_signal (trace w).

Inductive Outcome :=
| Returned (err : option error) (t : Z)
| Panicked
| Blocked.

Definition outcome (r : Res (option error)) : Outcome :=
  match r with
  | Ok err w => Returned err (now w)
  | Panic _ _ => Panicked
  | Block _ => Blocked
  end.

(** A world in which nothing has happened yet. *)
Definition world0 (t : Z) (ps : list nat) (c : Child) : World :=
  {| now := t; picks := ps; child := c; exit_at := None; watch := None;
     trace := [] |}.

(** ** The signal relay

    [signals := make(chan os.Signal, 1); signal.Notify(signals, SIGTERM,
    SIGINT)] and the goroutine that receives twice from it.  The main
    goroutine runs beside it; of its state only the phase of the cycle is
    kept. *)

Module Relay.

Inductive Phase := Launching | Running | Terminating | Killing.

Inductive PC :=
| AwaitFirst      (* s := <-signals *)
| AwaitSecond.    (* s = <-signals *)

Record Sup := {
  sigchan   : list Signal;     (* buffered channel, capacity 1 *)
  pc        : PC;
  cancelled : bool;            (* ctx.Done() is closed *)
  phase     : Phase;
  log       : list string;
  exited    : option Z         (* the status the process ended with *)
}.

Definition init : Sup :=
  {| sigchan := []; pc := AwaitFirst; cancelled := false;
     phase := Launching; log := []; exited := None |}.

Definition sigdec (s : Signal) : string :=
  match s with SIGINT => "2" | SIGKILL => "9" | SIGTERM => "15" end.

Definition got (s : Signal) (tail : string) : string :=
  "Got " ++ signame s ++ " (" ++ sigdec s ++ ") signal, " ++ tail.

(** The signals named in the call to [signal.Notify]. *)
Definition registered (s : Signal) : bool :=
  match s with
  | SIGTERM | SIGINT => true
  | SIGKILL => false
  end.

(** package signal sends without blocking: a signal that finds the buffer
    full is dropped. *)
Definition notify (s : Signal) (st : Sup) : Sup :=
  match exited st, sigchan st with
  | None, [] =>
      if registered s
      then {| sigchan := [s]; pc := pc st; cancelled := cancelled st;
              phase := phase st; log := log st; exited := None |}
      else st
  | _, _ => st
  end.

(** One receive of the relay goroutine and what follows it. *)
Definition relay_step (st : Sup) : option Sup :=
  match exited st, sigchan st with
  | None, s :: q =>
      match pc st with
      | AwaitFirst =>
          (* log.Printf(...); cancel() *)
          Some {| sigchan := q; pc := AwaitSecond; cancelled := true;
                  phase := phase st;
                  log := log st ++ [got s "shutting down..."];
                  exited := None |}
      | AwaitSecond =>
          (* log.Panicf(...): the panic is not recovered, exit status 2 *)
          Some {| sigchan := q; pc := AwaitSecond; cancelled := cancelled st;
                  phase := phase st;
                  log := log st ++ [got s "exiting!"];
                  exited := Some 2 |}
      end
  | _, _ => None
  end.

(** The main goroutine moves on, or ends the process with [log.Fatal]. *)
Definition main_goto (p : Phase) (st : Sup) : Sup :=
  match exited st with
  | None =>
      {| sigchan := sigchan st; pc := pc st; cancelled := cancelled st;
         phase := p; log := log st; exited := None |}
  | Some _ => st
  end.

Definition main_fatal (st : Sup) : Sup :=
  match exited st with
  | None =>
      {| sigchan := sigchan st; pc := pc st; cancelled := cancelled st;
         phase := phase st; log := log st; exited := Some 1 |}
  | Some _ => st
  end.

Inductive Act :=
| Notify (s : Signal)
| RelayStep
| MainGoto (p : Phase)
| MainFatal.

Definition step (a : Act) (st : Sup) : Sup :=
  match a with
  | Notify s => notify s st
  | RelayStep => match relay_step st with Some st' => st' | None => st end
  | MainGoto p => main_goto p st
  | MainFatal => main_fatal st
  end.

Definition exec (acts : list Act) (st : Sup) : Sup :=
  fold_left (fun s a => step a s) acts st.

End Relay.

(** ** Notions used to state the properties *)

(** The world after [cmd.Process.Signal(s)] and the logging of its
    failure, when no watcher is armed or its context is not done yet. *)
Definition signalled (s : Signal) (msg : string) (w : World) : World :=
  if alive_at (exit_at w) (now w)
  then deliver (now w) s w
  else emit (EvLog (now w) msg) w.

(** The instant at which the Running wait of a cycle started at [t0] ends
    when the child has not exited by then: the tick of the run ticker, or
    the moment the context is done if that comes first. *)
Definition term_time (ctx : Context) (t0 runP : Z) : Z :=
  Z.max t0 (match ctx with
            | Some c => Z.min c (t0 + runP)
            | None => t0 + runP
            end).

(** The child launched at [t0] does not exit by itself up to [t]. *)
Definition alive_until (c : Child) (t0 t : Z) : Prop :=
  alive_at (after t0 (self_exit c)) t = true.

(** What [run] returns for a scheduled exit. *)
Definition finish (e : option (Z * ExitStatus)) : Outcome :=
  match e with
  | None => Blocked
  | Some (x, st) => Returned (wait_result st) x
  end.

(** The signals and the outcome of a cycle that starts the child [c] at
    [t0] and is never cancelled: nothing if the child exits within the run
    period, SIGTERM at its end, SIGKILL one grace period later if the child
    is still there. *)
Definition escalation (t0 runP grace : Z) (c : Child) : list Event * Outcome :=
  let e0 := after t0 (self_exit c) in
  let tk := t0 + runP in
  if alive_at e0 tk then
    let e1 := earlier e0 (after tk (on_term c)) in
    let k := tk + grace in
    if alive_at e1 k
    then ([EvSignal tk SIGTERM; EvSignal k SIGKILL],
          finish (earlier e1 (after k (on_kill c))))
    else ([EvSignal tk SIGTERM], finish e1)
  else ([], finish e0).

(** The context is not done before [t]. *)
Definition ctx_not_before (ctx : Context) (t : Z) : Prop :=
  match ctx with
  | Some c => t <= c
  | None => True
  end.

(** A statement never sets the clock back. *)
Definition advances {A} (m : M A) : Prop :=
  forall w, now w <= now (final (m w)).

(** ** Some programs to run *)

(** Exits by itself after [d] with status [st]; ignores SIGTERM. *)
Definition quick (d : nat) (st : ExitStatus) : Child :=
  {| start_err := None; self_exit := Some (d, st); on_term := None;
     on_kill := Some (1%nat, Signaled SIGKILL) |}.

(** Never exits by itself and ignores SIGTERM. *)
Definition stubborn : Child :=
  {| start_err := None; self_exit := None; on_term := None;
     on_kill := Some (1%nat, Signaled SIGKILL) |}.

(** Cannot be started. *)
Definition missing : Child :=
  {| start_err := Some "executable file not found in $PATH";
     self_exit := None; on_term := None; on_kill := None |}.

(** The supervisor at instant 0, before its first cycle. *)
Definition fresh (ps : list nat) : World := world0 0 ps stubborn.

(** A child that exits after 10, just started by a cycle whose run period
    is 10, with a [select] that will pick its second ready case. *)
Definition tie_running : World :=
  started None (world0 0 [1%nat] (quick 10 (Exited 3))).

(** The relay has taken a first signal and a second one is in the channel
    while the main goroutine waits for a killed child. *)
Definition second_signal_pending : Relay.Sup :=
  Relay.exec [Relay.Notify SIGINT; Relay.RelayStep;
              Relay.MainGoto Relay.Killing; Relay.Notify SIGTERM]
             Relay.init.

(** ** The earlier [main]'s loop (main.go, first file)

    [for { log.Printf("Starting..."); ctx, cancel :=
    context.WithTimeout(mainCtx, *runF+*graceF); if err := run(ctx, *runF,
    flag.Args()); err != nil { log.Fatal(err) }; cancel() }].  When
    [cancel()] is reached the command has finished and its watcher with it. *)


(** ** More notions used to state properties *)

(** The signals and the outcome of a cycle of the current revision that
    starts the child [c] at [t0] under the context [ctx]: as [escalation],
    from the instant at which the Running wait ends. *)
Definition cycle_result (ctx : Context) (t0 runP grace : Z) (c : Child)
    : list Event * Outcome :=
  let e0 := after t0 (self_exit c) in
  let T := term_time ctx t0 runP in
  if alive_at e0 T then
    let e1 := earlier e0 (after T (on_term c)) in
    if alive_at e1 (T + grace)
    then ([EvSignal T SIGTERM; EvSignal (T + grace) SIGKILL],
          finish (earlier e1 (after (T + grace) (on_kill c))))
    else ([EvSignal T SIGTERM], finish e1)
  else ([], finish e0).

Definition is_start (e : Event) : bool :=
  match e with EvStart _ => true | _ => false end.

(** How many children have been started so far. *)
Definition starts (w : World) : nat :=
  List.length (filter is_start (trace w)).

(** A statement starts no child. *)
Definition starts_nothing {A} (m : M A) : Prop :=
  forall w, starts (final (m w)) = starts w.

(** How many of the signals named in [signal.Notify] the operating system
    has delivered to the process in the course of a schedule. *)
Fixpoint notified (acts : list Relay.Act) : nat :=
  match acts with
  | [] => 0%nat
  | Relay.Notify s :: rest =>
      if Relay.registered s then S (notified rest) else notified rest
  | _ :: rest => notified rest
  end.

(** How many signals the relay goroutine has received. *)
Definition taken (st : Relay.Sup) : nat :=
  match Relay.pc st, Relay.exited st with
  | Relay.AwaitFirst, _ => 0%nat
  | Relay.AwaitSecond, Some 2 => 2%nat
  | Relay.AwaitSecond, _ => 1%nat
  end.

(** Exits with status [st], [d] after it has received SIGTERM; does not
    exit by itself. *)
Definition polite (d : nat) (st : ExitStatus) : Child :=
  {| start_err := None; self_exit := None; on_term := Some (d, st);
     on_kill := Some (1%nat, Signaled SIGKILL) |}.

(** Never exits, whatever it is sent. *)
Definition unkillable : Child :=
  {| start_err := None; self_exit := None; on_term := None;
     on_kill := None |}.

(** Two signals, each taken by the relay before the next step. *)
Definition two_signals : list Relay.Act :=
  [Relay.Notify SIGINT; Relay.RelayStep; Relay.Notify SIGTERM;
   Relay.RelayStep].


Local Close Scope string_scope.
Local Open Scope list_scope.

(** * Facts about the primitives *)

Ltac in_cases H :=
  cbn [In] in H;
  repeat (destruct H as [H|H]; try discriminate H; try contradiction);
  try (inversion H; subst; clear H).

Ltac in_tick H :=
  cbn [In] in H;
  repeat (destruct H as [H|H]; try discriminate H; try contradiction);
  injection H as H; rewrite <- ?H in *; clear H.

Ltac sigs :=
  unfold signals; cbn; repeat rewrite filter_app; cbn;
  rewrite ?app_nil_r, <- ?app_assoc; auto.

(** ** Scheduled exits *)

Lemma alive_at_lt e t x st :
  alive_at e t = true -> e = Some (x, st) -> t < x.
Proof. intros H ->. cbn in H. now apply Z.ltb_lt. Qed.

Lemma alive_at_mono e t t' :
  alive_at e t = true -> t' <= t -> alive_at e t' = true.
Proof.
  destruct e as [[x st]|]; cbn; auto. intros H Hle.
  apply Z.ltb_lt in H. apply Z.ltb_lt. lia.
Qed.

Lemma not_alive_at e t :
  alive_at e t = false -> exists x st, e = Some (x, st) /\ x <= t.
Proof.
  destruct e as [[x st]|]; cbn; [|discriminate].
  intros H. apply Z.ltb_ge in H. eauto.
Qed.

Lemma earlier_None_r e : earlier e None = e.
Proof. destruct e as [[? ?]|]; reflexivity. Qed.

Lemma earlier_after_ge e t r x st :
  alive_at e t = true ->
  earlier e (after t r) = Some (x, st) -> t <= x.
Proof.
  intros Ha He.
  destruct e as [[a ast]|], r as [[d rst]|]; cbn in He; try discriminate.
  - pose proof (alive_at_lt _ _ _ _ Ha eq_refl).
    destruct (Z.ltb_spec (t + Z.of_nat d) a); inversion He; subst; lia.
  - inversion He; subst. pose proof (alive_at_lt _ _ _ _ Ha eq_refl). lia.
  - inversion He; subst. lia.
Qed.

(** ** The watcher of [exec.CommandContext] *)

Lemma projected_exit_settle t w :
  projected_exit (settle t w) = projected_exit w.
Proof.
  unfold settle, projected_exit.
  destruct (watch w) as [k|] eqn:Hk; [|rewrite Hk; reflexivity].
  destruct (k <=? t); [|rewrite Hk; reflexivity].
  destruct (alive_at (exit_at w) k); reflexivity.
Qed.

Lemma now_settle t w : now (settle t w) = now w.
Proof.
  unfold settle. destruct (watch w); auto. destruct (_ <=? _); auto.
  destruct (alive_at _ _); auto.
Qed.

Lemma picks_settle t w : picks (settle t w) = picks w.
Proof.
  unfold settle. destruct (watch w); auto. destruct (_ <=? _); auto.
  destruct (alive_at _ _); auto.
Qed.

Lemma child_settle t w : child (settle t w) = child w.
Proof.
  unfold settle. destruct (watch w); auto. destruct (_ <=? _); auto.
  destruct (alive_at _ _); auto.
Qed.

Lemma now_expire w : now (expire w) = now w.
Proof. unfold expire. destruct (watch w); auto. apply now_settle. Qed.

Lemma now_wake t w : now (wake t w) = Z.max (now w) t.
Proof. unfold wake. now rewrite now_settle. Qed.

Lemma picks_wake t w : picks (wake t w) = picks w.
Proof. unfold wake. now rewrite picks_settle. Qed.

Lemma child_wake t w : child (wake t w) = child w.
Proof. unfold wake. now rewrite child_settle. Qed.

Lemma ready_time_wake t w c : ready_time (wake t w) c = ready_time w c.
Proof.
  destruct c; cbn; auto. unfold wake. now rewrite projected_exit_settle.
Qed.

Lemma wake_nowatch t w :
  watch w = None -> wake t w = set_now (Z.max (now w) t) w.
Proof. intros H. unfold wake, settle. cbn. now rewrite H. Qed.

Lemma projected_nowatch w : watch w = None -> projected_exit w = exit_at w.
Proof. intros H. unfold projected_exit. now rewrite H. Qed.

Lemma settle_early k t w :
  watch w = Some k -> t < k -> settle t w = w.
Proof.
  intros Hw H. unfold settle. rewrite Hw.
  destruct (Z.leb_spec k t); [lia|reflexivity].
Qed.

Lemma wake_early k t w :
  watch w = Some k -> Z.max (now w) t < k ->
  wake t w = set_now (Z.max (now w) t) w.
Proof. intros Hw H. unfold wake. now apply settle_early with (k := k). Qed.

(** The watcher kills a child that is still there when the context is
    done. *)
Lemma wake_kills k t w :
  watch w = Some k -> k <= Z.max (now w) t ->
  alive_at (exit_at w) k = true ->
  wake t w = deliver k SIGKILL (set_watch None (set_now (Z.max (now w) t) w)).
Proof.
  intros Hw H Ha. unfold wake, settle. cbn. rewrite Hw.
  destruct (Z.leb_spec k (Z.max (now w) t)); [|lia]. now rewrite Ha.
Qed.

Lemma expire_kills k w :
  watch w = Some k -> alive_at (exit_at w) k = true ->
  expire w = deliver k SIGKILL (set_watch None w).
Proof.
  intros Hw Ha. unfold expire, settle. rewrite Hw, Z.leb_refl. now rewrite Ha.
Qed.

Lemma signals_settle_dead t w :
  (forall k, watch w = Some k -> alive_at (exit_at w) k = false) ->
  signals (settle t w) = signals w.
Proof.
  intros H. unfold settle. destruct (watch w) as [k|]; auto.
  destruct (k <=? t); auto. now rewrite (H k eq_refl).
Qed.

(** An exit projected before the context is done is the scheduled one. *)
Lemma projected_before k w x st :
  watch w = Some k -> projected_exit w = Some (x, st) -> x < k ->
  exit_at w = Some (x, st).
Proof.
  intros Hw Hp Hx. unfold projected_exit in Hp. rewrite Hw in Hp.
  destruct (alive_at (exit_at w) k) eqn:Ha; [|exact Hp].
  pose proof (earlier_after_ge _ _ _ _ _ Ha Hp). lia.
Qed.

Lemma projected_alive k w :
  watch w = Some k -> alive_at (exit_at w) k = true ->
  projected_exit w = earlier (exit_at w) (after k (on_kill (child w))).
Proof. intros Hw Ha. unfold projected_exit. now rewrite Hw, Ha. Qed.

Lemma projected_dead k w :
  watch w = Some k -> alive_at (exit_at w) k = false ->
  projected_exit w = exit_at w.
Proof. intros Hw Ha. unfold projected_exit. now rewrite Hw, Ha. Qed.

(** Once the watcher has had its turn, what [cmd.Wait()] reports is what
    was projected. *)
Lemma exit_at_wake t w x st :
  projected_exit w = Some (x, st) -> x <= Z.max (now w) t ->
  exit_at (wake t w) = Some (x, st).
Proof.
  intros Hp Hx. unfold projected_exit in Hp. unfold wake, settle. cbn.
  destruct (watch w) as [k|]; [|exact Hp].
  destruct (Z.leb_spec k (Z.max (now w) t)) as [Hk|Hk].
  - destruct (alive_at (exit_at w) k); cbn; exact Hp.
  - cbn. destruct (exit_at w) as [[e est]|]; cbn in Hp.
    + destruct (Z.ltb_spec k e) as [Hke|Hke]; [|exact Hp].
      destruct (on_kill (child w)) as [[d kst]|]; cbn in Hp.
      * destruct (Z.ltb_spec (k + Z.of_nat d) e);
          inversion Hp; subst; lia.
      * inversion Hp; subst; lia.
    + destruct (on_kill (child w)) as [[d kst]|]; cbn in Hp;
        inversion Hp; subst; lia.
Qed.

(** ** [select] *)

Section Select.

Variable w : World.

Lemma first_ready_lower cs t :
  first_ready w cs = Some t ->
  forall c t', In c cs -> ready_time w c = Some t' -> t <= t'.
Proof.
  revert t. induction cs as [|c0 cs IH]; intros t Hf c t' Hin Hr.
  - contradiction.
  - cbn [first_ready fold_right] in Hf. fold (first_ready w cs) in Hf.
    destruct Hin as [->|Hin].
    + rewrite Hr in Hf. destruct (first_ready w cs); cbn in Hf; inversion Hf; lia.
    + destruct (first_ready w cs) as [u|] eqn:Hu.
      * specialize (IH u eq_refl c t' Hin Hr).
        destruct (ready_time w c0); cbn in Hf; inversion Hf; lia.
      * exfalso. clear IH Hf. induction cs as [|c1 cs IH]; [contradiction|].
        cbn [first_ready fold_right] in Hu. fold (first_ready w cs) in Hu.
        destruct Hin as [->|Hin].
        -- rewrite Hr in Hu. destruct (first_ready w cs); discriminate.
        -- destruct (first_ready w cs); [|auto].
           destruct (ready_time w c1); discriminate.
Qed.

Lemma first_ready_attained cs t :
  first_ready w cs = Some t ->
  exists c, In c cs /\ ready_time w c = Some t.
Proof.
  revert t. induction cs as [|c0 cs IH]; intros t Hf.
  - discriminate.
  - cbn [first_ready fold_right] in Hf. fold (first_ready w cs) in Hf.
    destruct (ready_time w c0) as [a|] eqn:Ha, (first_ready w cs) as [b|] eqn:Hb;
      cbn in Hf; inversion Hf; subst.
    + destruct (Z.min_spec a b) as [[_ ->]|[_ ->]].
      * exists c0; split; [left|]; auto.
      * destruct (IH b eq_refl) as (c & Hin & Hc). exists c; split; [right|]; auto.
    + exists c0; split; [left|]; auto.
    + destruct (IH t eq_refl) as (c & Hin & Hc). exists c; split; [right|]; auto.
Qed.

End Select.

Lemma choose_some cs w c0 :
  In c0 cs -> is_ready w c0 = true ->
  exists c, In c cs /\ is_ready w c = true /\
    choose cs w = Ok (received w c) (set_picks (tl (picks w)) w).
Proof.
  intros Hin Hr. unfold choose.
  assert (Hf : In c0 (filter (is_ready w) cs)) by (apply filter_In; auto).
  destruct (filter (is_ready w) cs) as [|c rest] eqn:E; [contradiction|].
  set (i := Nat.modulo _ _).
  assert (Hi : (i < List.length (c :: rest))%nat)
    by (apply Nat.mod_upper_bound; discriminate).
  assert (Hn : In (nth i (c :: rest) c) (filter (is_ready w) cs))
    by (rewrite E; apply nth_In; exact Hi).
  apply filter_In in Hn. destruct Hn as [Hn1 Hn2].
  exists (nth i (c :: rest) c); auto.
Qed.

(** [select] returns with one of its cases, and that case could proceed at
    the instant of the return. *)
Lemma select_spec cs w t :
  first_ready w cs = Some t ->
  exists c, In c cs /\ is_ready (wake t w) c = true /\
    select cs w =
      Ok (received (wake t w) c) (set_picks (tl (picks w)) (wake t w)).
Proof.
  intros Hf. unfold select. rewrite Hf.
  destruct (first_ready_attained w cs t Hf) as (c0 & Hin & Hc0).
  assert (Hr : is_ready (wake t w) c0 = true).
  { unfold is_ready. rewrite ready_time_wake, Hc0, now_wake.
    apply Z.leb_le. lia. }
  destruct (choose_some cs (wake t w) c0 Hin Hr) as (c & H1 & H2 & H3).
  exists c. rewrite picks_wake in H3. auto.
Qed.

Lemma select_blocks cs w :
  first_ready w cs = None -> select cs w = Block (expire w).
Proof. intros H. unfold select. now rewrite H. Qed.

(** The three ways out of a [select], with what made each possible. *)
Lemma select_cases cs w t :
  first_ready w cs = Some t ->
  (exists c, In (CaseCtx (Some c)) cs /\ c <= Z.max (now w) t /\
     select cs w = Ok SelCtx (set_picks (tl (picks w)) (wake t w))) \/
  (exists x st, In CaseDone cs /\ projected_exit w = Some (x, st) /\
     x <= Z.max (now w) t /\
     select cs w =
       Ok (SelDone (wait_result st)) (set_picks (tl (picks w)) (wake t w))) \/
  (exists tk, In (CaseTick tk) cs /\ tk <= Z.max (now w) t /\
     select cs w = Ok SelTick (set_picks (tl (picks w)) (wake t w))).
Proof.
  intros Hf. destruct (select_spec cs w t Hf) as (c & Hin & Hr & Hs).
  unfold is_ready in Hr. rewrite ready_time_wake, now_wake in Hr.
  destruct c as [[c|]| |tk]; cbn in Hr; try discriminate.
  - left. exists c. apply Z.leb_le in Hr. auto.
  - right; left. destruct (projected_exit w) as [[x st]|] eqn:Hp;
      cbn in Hr; [|discriminate].
    apply Z.leb_le in Hr. exists x, st. repeat split; auto.
    rewrite Hs. cbn [received]. now rewrite (exit_at_wake t w x st Hp Hr).
  - right; right. exists tk. apply Z.leb_le in Hr. auto.
Qed.

Lemma select_cases_nowatch cs w t :
  watch w = None ->
  first_ready w cs = Some t ->
  (exists c, In (CaseCtx (Some c)) cs /\ c <= Z.max (now w) t /\
     select cs w =
       Ok SelCtx (set_picks (tl (picks w)) (set_now (Z.max (now w) t) w))) \/
  (exists x st, In CaseDone cs /\ exit_at w = Some (x, st) /\
     x <= Z.max (now w) t /\
     select cs w =
       Ok (SelDone (wait_result st))
          (set_picks (tl (picks w)) (set_now (Z.max (now w) t) w))) \/
  (exists tk, In (CaseTick tk) cs /\ tk <= Z.max (now w) t /\
     select cs w =
       Ok SelTick (set_picks (tl (picks w)) (set_now (Z.max (now w) t) w))).
Proof.
  intros Hw Hf. pose proof (select_cases cs w t Hf) as H.
  rewrite (wake_nowatch t w Hw), (projected_nowatch w Hw) in H. exact H.
Qed.

Lemma first_ready_running ctx tk w :
  watch w = None ->
  exists t, first_ready w [CaseCtx ctx; CaseDone; CaseTick tk] = Some t /\
    t <= tk /\
    (forall c, ctx = Some c -> t <= c) /\
    (forall x st, exit_at w = Some (x, st) -> t <= x) /\
    (t = tk \/ ctx = Some t \/ exists st, exit_at w = Some (t, st)).
Proof.
  intros Hw. cbn. rewrite projected_nowatch by exact Hw.
  destruct ctx as [c|], (exit_at w) as [[x st]|]; cbn; eexists; (split; [reflexivity|]).
  - repeat split; try lia.
    + intros ? H; inversion H; lia.
    + intros ? ? H; inversion H; lia.
    + destruct (Z.min_spec c (Z.min x tk)) as [[_ ->]|[_ ->]]; auto.
      destruct (Z.min_spec x tk) as [[_ ->]|[_ ->]]; eauto.
  - repeat split; try lia.
    + intros ? H; inversion H; lia.
    + discriminate.
    + destruct (Z.min_spec c tk) as [[_ ->]|[_ ->]]; auto.
  - repeat split; try lia.
    + discriminate.
    + intros ? ? H; inversion H; lia.
    + destruct (Z.min_spec x tk) as [[_ ->]|[_ ->]]; eauto.
  - repeat split; try lia; try discriminate; auto.
Qed.

Lemma first_ready_grace tk w :
  watch w = None ->
  exists t, first_ready w [CaseDone; CaseTick tk] = Some t /\
    t <= tk /\
    (forall x st, exit_at w = Some (x, st) -> t <= x) /\
    (t = tk \/ exists st, exit_at w = Some (t, st)).
Proof.
  intros Hw. cbn. rewrite projected_nowatch by exact Hw.
  destruct (exit_at w) as [[x st]|]; cbn; eexists; (split; [reflexivity|]).
  - repeat split; try lia.
    + intros ? ? H; inversion H; lia.
    + destruct (Z.min_spec x tk) as [[_ ->]|[_ ->]]; eauto.
  - repeat split; try lia; try discriminate; auto.
Qed.

(** A context that is done only after the tick of the run ticker plays no
    part in the Running wait. *)
Lemma select_ctx_late c tk w :
  Z.max (now w) tk < c ->
  select [CaseCtx (Some c); CaseDone; CaseTick tk] w =
  select [CaseCtx None; CaseDone; CaseTick tk] w.
Proof.
  intros Hc. unfold select. cbn [first_ready fold_right ready_time].
  set (m := min_opt (option_map fst (projected_exit w)) (min_opt (Some tk) None)).
  assert (Hm : exists t, m = Some t /\ t <= tk).
  { subst m. destruct (option_map fst (projected_exit w)) as [x|]; cbn;
      eexists; split; try reflexivity; lia. }
  destruct Hm as (t & Hm & Ht). rewrite Hm. cbn [min_opt].
  replace (Z.min c t) with t by lia.
  unfold choose. cbn [filter].
  assert (H1 : is_ready (wake t w) (CaseCtx (Some c)) = false).
  { unfold is_ready. cbn [ready_time]. rewrite now_wake. apply Z.leb_gt. lia. }
  rewrite H1. reflexivity.
Qed.

(** ** Receiving from [done], sending a signal *)

Lemma recv_done_spec w :
  recv_done w =
    match projected_exit w with
    | None => Block (expire w)
    | Some (x, st) =>
        Ok (wait_result st) (set_picks (tl (picks w)) (wake x w))
    end.
Proof.
  unfold recv_done.
  destruct (projected_exit w) as [[x st]|] eqn:Hp.
  - assert (Hf : first_ready w [CaseDone] = Some x)
      by (cbn; rewrite Hp; reflexivity).
    destruct (select_spec _ _ _ Hf) as (c & Hin & Hr & ->).
    destruct Hin as [<-|[]]. cbn [received].
    rewrite (exit_at_wake x w x st Hp) by lia. reflexivity.
  - rewrite select_blocks; auto. cbn. now rewrite Hp.
Qed.

Lemma recv_done_nowatch w :
  watch w = None ->
  recv_done w =
    match exit_at w with
    | None => Block w
    | Some (x, st) =>
        Ok (wait_result st)
           (set_picks (tl (picks w)) (set_now (Z.max (now w) x) w))
    end.
Proof.
  intros Hw. rewrite recv_done_spec, (projected_nowatch w Hw).
  destruct (exit_at w) as [[x st]|]; [now rewrite wake_nowatch|].
  unfold expire. now rewrite Hw.
Qed.

Lemma trace_recv_done_nowatch w :
  watch w = None -> trace (final (recv_done w)) = trace w.
Proof.
  intros Hw. rewrite recv_done_nowatch by exact Hw.
  destruct (exit_at w) as [[x st]|]; reflexivity.
Qed.

Lemma Process_Signal_nowatch s w :
  watch w = None ->
  Process_Signal s w =
    if alive_at (exit_at w) (now w)
    then Ok None (deliver (now w) s w)
    else Ok (Some ErrProcessDone) w.
Proof. intros H. unfold Process_Signal, settle. now rewrite H. Qed.

Lemma signal_or_log_nowatch s msg w :
  watch w = None -> signal_or_log s msg w = Ok tt (signalled s msg w).
Proof.
  intros Hw. unfold signal_or_log, bind, signalled.
  rewrite Process_Signal_nowatch by exact Hw.
  destruct (alive_at (exit_at w) (now w)); reflexivity.
Qed.

Lemma signal_or_log_early k s msg w :
  watch w = Some k -> now w < k ->
  signal_or_log s msg w = Ok tt (signalled s msg w).
Proof.
  intros Hw H. unfold signal_or_log, bind, Process_Signal, signalled.
  rewrite (settle_early k (now w) w Hw H).
  destruct (alive_at (exit_at w) (now w)); reflexivity.
Qed.

Lemma watch_signalled s msg w : watch (signalled s msg w) = watch w.
Proof. unfold signalled. destruct (alive_at _ _); reflexivity. Qed.

Lemma now_signalled s msg w : now (signalled s msg w) = now w.
Proof. unfold signalled. destruct (alive_at _ _); reflexivity. Qed.

Lemma picks_signalled s msg w : picks (signalled s msg w) = picks w.
Proof. unfold signalled. destruct (alive_at _ _); reflexivity. Qed.

Lemma child_signalled s msg w : child (signalled s msg w) = child w.
Proof. unfold signalled. destruct (alive_at _ _); reflexivity. Qed.

Lemma wrap64_small z : - 2 ^ 63 <= z < 2 ^ 63 -> wrap64 z = z.
Proof. intros H. unfold wrap64. rewrite Z.mod_small; lia. Qed.

(** ** The clock only moves forward *)

Lemma advances_ret {A} (a : A) : advances (ret a).
Proof. intros w. cbn. lia. Qed.

Lemma advances_bind {A B} (m : M A) (k : A -> M B) :
  advances m -> (forall a, advances (k a)) -> advances (bind m k).
Proof.
  intros Hm Hk w. unfold bind. specialize (Hm w).
  destruct (m w) as [a w'| |]; cbn in *; auto.
  specialize (Hk a w'). lia.
Qed.

Lemma advances_NewTicker d : advances (NewTicker d).
Proof. intros w. unfold NewTicker. destruct (d <=? 0); cbn; lia. Qed.

Lemma advances_log msg : advances (log_Printf msg).
Proof. intros w. cbn. lia. Qed.

Lemma advances_cmd_Start : advances cmd_Start.
Proof. intros w. unfold cmd_Start. destruct (start_err _); cbn; lia. Qed.

Lemma advances_Process_Signal s : advances (Process_Signal s).
Proof.
  intros w. unfold Process_Signal.
  destruct (alive_at _ _); cbn; rewrite now_settle; lia.
Qed.

Lemma advances_select cs : advances (select cs).
Proof.
  intros w. unfold select. destruct (first_ready w cs) as [t|].
  - unfold choose. destruct (filter _ _); cbn.
    + rewrite now_expire, now_wake. lia.
    + rewrite now_wake. lia.
  - cbn. rewrite now_expire. lia.
Qed.

Lemma advances_recv_done : advances recv_done.
Proof.
  intros w. unfold recv_done. pose proof (advances_select [CaseDone] w) as H.
  destruct (select _ w) as [[]| |]; exact H.
Qed.

Lemma advances_signal_or_log s msg : advances (signal_or_log s msg).
Proof.
  apply advances_bind; [apply advances_Process_Signal|].
  intros [e|]; [apply advances_log|apply advances_ret].
Qed.

Lemma advances_killing : advances killing.
Proof.
  apply advances_bind; [apply advances_signal_or_log|].
  intros _. apply advances_recv_done.
Qed.

Lemma advances_terminating grace : advances (terminating grace).
Proof.
  apply advances_bind; [apply advances_signal_or_log|]. intros _.
  apply advances_bind; [apply advances_NewTicker|]. intros tk.
  apply advances_bind; [apply advances_select|].
  intros [|e|]; try apply advances_killing. apply advances_ret.
Qed.

Lemma advances_run ctx runP grace : advances (run ctx runP grace).
Proof.
  apply advances_bind; [apply advances_NewTicker|]. intros tk.
  apply advances_bind; [apply advances_cmd_Start|].
  intros [e|]; [apply advances_ret|].
  apply advances_bind; [apply advances_select|].
  intros [|e|]; try apply advances_terminating. apply advances_ret.
Qed.

Lemma ctx_done_later ctx t t' :
  ctx_done ctx t = true -> t <= t' -> ctx_done ctx t' = true.
Proof.
  destruct ctx as [c|]; cbn; [|discriminate].
  intros H Hle. apply Z.leb_le in H. apply Z.leb_le. lia.
Qed.

(** * The phases of [run], current revision *)

Lemma run_panics ctx runP grace w :
  runP <= 0 ->
  run ctx runP grace w = Panic "non-positive interval for NewTicker" w.
Proof.
  intros H. unfold run, bind, NewTicker.
  destruct (Z.leb_spec runP 0); [reflexivity|lia].
Qed.

Lemma run_launch_error ctx runP grace w msg :
  0 < runP -> start_err (child w) = Some msg ->
  run ctx runP grace w = Ok (Some (ErrLaunch msg)) w.
Proof.
  intros H Hs. unfold run, bind, NewTicker, cmd_Start.
  destruct (Z.leb_spec runP 0); [lia|]. now rewrite Hs.
Qed.

Lemma run_started ctx runP grace w :
  0 < runP -> start_err (child w) = None ->
  run ctx runP grace w = running ctx (now w + runP) grace (started None w).
Proof.
  intros H Hs. unfold run, bind, NewTicker, cmd_Start.
  destruct (Z.leb_spec runP 0); [lia|]. now rewrite Hs.
Qed.

Lemma killing_nowatch w :
  watch w = None ->
  killing w = recv_done (signalled SIGKILL msg_kill w).
Proof.
  intros Hw. unfold killing, bind. now rewrite signal_or_log_nowatch.
Qed.

Lemma terminating_nowatch grace w :
  watch w = None -> 0 < grace ->
  terminating grace w =
    match select [CaseDone; CaseTick (now w + grace)]
                 (signalled SIGTERM msg_term w) with
    | Ok (SelDone err) w' => Ok err w'
    | Ok _ w' => killing w'
    | Panic msg w' => Panic msg w'
    | Block w' => Block w'
    end.
Proof.
  intros Hw Hg. unfold terminating, bind.
  rewrite signal_or_log_nowatch by exact Hw. unfold NewTicker.
  destruct (Z.leb_spec grace 0); [lia|]. rewrite now_signalled.
  destruct (select _ _) as [[]| |]; reflexivity.
Qed.

Lemma terminating_panics grace w :
  watch w = None -> grace <= 0 ->
  terminating grace w =
    Panic "non-positive interval for NewTicker" (signalled SIGTERM msg_term w).
Proof.
  intros Hw Hg. unfold terminating, bind.
  rewrite signal_or_log_nowatch by exact Hw. unfold NewTicker.
  destruct (Z.leb_spec grace 0); [reflexivity|lia].
Qed.

(** The child has exited by itself before the run period ends and before
    the context is done. *)
Lemma running_exits ctx tk grace w x st :
  watch w = None ->
  exit_at w = Some (x, st) -> now w <= x -> x < tk ->
  ctx_done ctx x = false ->
  running ctx tk grace w =
    Ok (wait_result st) (set_picks (tl (picks w)) (set_now x w)).
Proof.
  intros Hw He Hn Hx Hc. unfold running, bind.
  destruct (first_ready_running ctx tk w Hw) as (t & Hf & Htk & Hcx & Hxx & Hat).
  assert (HT : Z.max (now w) t = x).
  { specialize (Hxx _ _ He).
    destruct Hat as [->|[->|(st' & H)]]; [lia| |].
    - cbn in Hc. apply Z.leb_gt in Hc. lia.
    - rewrite He in H. inversion H; subst. lia. }
  destruct (select_cases_nowatch _ _ _ Hw Hf) as
    [(c & Hin & Hle & ->)|[(x' & st' & Hin & Hp & Hle & ->)|(tk' & Hin & Hle & ->)]];
    rewrite ?HT in *.
  - in_cases Hin. cbn in Hc. apply Z.leb_gt in Hc. lia.
  - rewrite He in Hp. inversion Hp; subst. reflexivity.
  - in_cases Hin. lia.
Qed.

Lemma run_early_exit ctx runP grace w d st :
  start_err (child w) = None ->
  self_exit (child w) = Some (d, st) ->
  Z.of_nat d < runP ->
  ctx_done ctx (now w + Z.of_nat d) = false ->
  run ctx runP grace w =
    Ok (wait_result st)
       (set_picks (tl (picks w)) (set_now (now w + Z.of_nat d) (started None w))).
Proof.
  intros Hs He Hd Hc. rewrite run_started by (auto; lia).
  rewrite (running_exits ctx _ grace (started None w) (now w + Z.of_nat d) st);
    auto; cbn; try lia. now rewrite He.
Qed.

(** A child that is still running when the run period ends, or when the
    context is done, is asked to exit at that instant. *)
Lemma running_alive ctx tk grace w :
  watch w = None ->
  let T := Z.max (now w) (match ctx with Some c => Z.min c tk | None => tk end) in
  alive_at (exit_at w) T = true ->
  running ctx tk grace w =
    terminating grace (set_picks (tl (picks w)) (set_now T w)).
Proof.
  intros Hw T Ha. unfold running, bind.
  destruct (first_ready_running ctx tk w Hw) as (t & Hf & Htk & Hc & Hx & Hat).
  assert (HT : Z.max (now w) t = T).
  { subst T. destruct ctx as [c|].
    - specialize (Hc c eq_refl).
      destruct Hat as [->|[H|(st & H)]]; [lia|inversion H; lia|].
      pose proof (alive_at_lt _ _ _ _ Ha H). lia.
    - destruct Hat as [->|[H|(st & H)]]; [lia|discriminate|].
      pose proof (alive_at_lt _ _ _ _ Ha H). lia. }
  destruct (select_cases_nowatch _ _ _ Hw Hf) as
    [(c & Hin & Hle & ->)|[(x & xs & Hin & Hp & Hle & ->)|(tk' & Hin & Hle & ->)]];
    rewrite ?HT in *; auto.
  pose proof (alive_at_lt _ _ _ _ Ha Hp). lia.
Qed.

(** A cycle whose child is still running when the Running wait ends. *)
Lemma run_terminates ctx runP grace w :
  0 < runP -> start_err (child w) = None ->
  alive_until (child w) (now w) (term_time ctx (now w) runP) ->
  run ctx runP grace w =
    terminating grace
      (set_picks (tl (picks w))
         (set_now (term_time ctx (now w) runP) (started None w))).
Proof.
  intros Hr Hs Ha. rewrite run_started by auto.
  rewrite running_alive; [reflexivity|reflexivity|exact Ha].
Qed.

(** The child had exited when it was asked to: nothing is sent, and the
    grace wait ends at once. *)
Lemma terminating_dead grace w x st :
  watch w = None -> 0 < grace ->
  exit_at w = Some (x, st) -> x <= now w ->
  terminating grace w =
    Ok (wait_result st)
       (set_picks (tl (picks w))
          (set_now (now w) (emit (EvLog (now w) msg_term) w))).
Proof.
  intros Hw Hg He Hx. rewrite terminating_nowatch by auto.
  assert (Hs : signalled SIGTERM msg_term w = emit (EvLog (now w) msg_term) w).
  { unfold signalled. rewrite He. cbn. destruct (Z.ltb_spec (now w) x); [lia|auto]. }
  rewrite Hs. set (w1 := emit _ w).
  assert (Hw1 : watch w1 = None) by exact Hw.
  destruct (first_ready_grace (now w + grace) w1 Hw1) as (t & Hf & Htk & Hxx & Hat).
  assert (He1 : exit_at w1 = Some (x, st)) by exact He.
  assert (HT : Z.max (now w1) t = now w).
  { specialize (Hxx _ _ He1). change (now w1) with (now w). lia. }
  destruct (select_cases_nowatch _ _ _ Hw1 Hf) as
    [(c & Hin & _)|[(x' & st' & Hin & Hp & Hle & ->)|(tk' & Hin & Hle & ->)]];
    rewrite ?HT in *.
  - in_cases Hin.
  - rewrite He1 in Hp. inversion Hp; subst. reflexivity.
  - in_cases Hin. lia.
Qed.

(** After the request to exit, a SIGKILL can only come one full grace
    period later. *)
Lemma terminating_trace grace w :
  watch w = None ->
  alive_at (exit_at w) (now w) = true ->
  exists rest,
    trace (final (terminating grace w)) =
      trace w ++ EvSignal (now w) SIGTERM :: rest /\
    forall t, In (EvSignal t SIGKILL) rest -> t = now w + grace.
Proof.
  intros Hw Ha.
  assert (Hs : signalled SIGTERM msg_term w = deliver (now w) SIGTERM w)
    by (unfold signalled; now rewrite Ha).
  destruct (Z.leb_spec grace 0) as [Hg|Hg].
  { rewrite terminating_panics, Hs by auto. exists []. split; [reflexivity|].
    intros t []. }
  rewrite terminating_nowatch, Hs by auto. set (w1 := deliver _ _ w).
  assert (Hw1 : watch w1 = None) by exact Hw.
  destruct (first_ready_grace (now w + grace) w1 Hw1) as (t & Hf & Htk & Hxx & Hat).
  destruct (select_cases_nowatch _ _ _ Hw1 Hf) as
    [(c & Hin & _)|[(x' & st' & Hin & Hp & Hle & ->)|(tk' & Hin & Hle & ->)]].
  - in_cases Hin.
  - exists []. split; [reflexivity|]. intros u [].
  - in_cases Hin. change (now w1) with (now w) in *.
    assert (HT : Z.max (now w) t = now w + grace) by lia. rewrite HT.
    set (w2 := set_picks _ _).
    assert (Hw2 : watch w2 = None) by exact Hw.
    rewrite killing_nowatch by exact Hw2.
    rewrite trace_recv_done_nowatch by (rewrite watch_signalled; exact Hw2).
    unfold signalled. change (now w2) with (now w + grace).
    destruct (alive_at (exit_at w2) (now w + grace)).
    + exists [EvSignal (now w + grace) SIGKILL]. split.
      * cbn. now rewrite <- app_assoc.
      * intros u [H|[]]. now inversion H.
    + exists [EvLog (now w + grace) msg_kill]. split.
      * cbn. now rewrite <- app_assoc.
      * intros u [H|[]]. discriminate.
Qed.

Lemma run_trace ctx runP grace w :
  0 < runP -> start_err (child w) = None ->
  alive_until (child w) (now w) (term_time ctx (now w) runP) ->
  exists rest,
    trace (final (run ctx runP grace w)) =
      trace w ++ EvStart (now w)
        :: EvSignal (term_time ctx (now w) runP) SIGTERM :: rest /\
    forall t, In (EvSignal t SIGKILL) rest ->
              t = term_time ctx (now w) runP + grace.
Proof.
  intros Hr Hs Ha. rewrite run_terminates by auto.
  set (w2 := set_picks _ _).
  destruct (terminating_trace grace w2) as (rest & Ht & Hk);
    [reflexivity|exact Ha|].
  exists rest. split; [|exact Hk].
  rewrite Ht. cbn. now rewrite <- app_assoc.
Qed.

(** From the request to exit to the end of the cycle, for a child that
    lives through the grace period. *)
Lemma terminating_escalates grace w :
  watch w = None -> 0 < grace ->
  on_term (child w) = None ->
  alive_at (exit_at w) (now w + grace) = true ->
  let r := terminating grace w in
  trace (final r) =
    trace w ++ [EvSignal (now w) SIGTERM; EvSignal (now w + grace) SIGKILL] /\
  outcome r =
    match earlier (exit_at w) (after (now w + grace) (on_kill (child w))) with
    | None => Blocked
    | Some (x, st) => Returned (wait_result st) x
    end.
Proof.
  intros Hw Hg Ht Ha. cbv zeta.
  rewrite terminating_nowatch by auto.
  assert (Hs : signalled SIGTERM msg_term w =
               emit (EvSignal (now w) SIGTERM) w).
  { unfold signalled. rewrite (alive_at_mono _ _ (now w) Ha) by lia.
    unfold deliver. cbn [react]. rewrite Ht. cbn [after].
    rewrite earlier_None_r. destruct w; reflexivity. }
  rewrite Hs. set (w1 := emit _ w).
  assert (Hw1 : watch w1 = None) by exact Hw.
  destruct (first_ready_grace (now w + grace) w1 Hw1) as (t & Hf & Htk & Hx & Hat).
  assert (HT : Z.max (now w1) t = now w + grace).
  { cbn. destruct Hat as [->|(st & H)]; [lia|].
    pose proof (alive_at_lt _ _ _ _ Ha H). lia. }
  destruct (select_cases_nowatch _ _ _ Hw1 Hf) as
    [(c & Hin & _)|[(x & xs & Hin & Hp & Hle & ->)|(tk' & Hin & Hle & ->)]].
  - in_cases Hin.
  - pose proof (alive_at_lt _ _ _ _ Ha Hp). lia.
  - rewrite HT. set (w2 := set_picks _ _).
    assert (Hw2 : watch w2 = None) by exact Hw.
    rewrite killing_nowatch by exact Hw2.
    assert (Hk : signalled SIGKILL msg_kill w2 =
                 deliver (now w + grace) SIGKILL w2).
    { unfold signalled. cbn [now exit_at w2 w1 set_picks set_now emit].
      now rewrite Ha. }
    rewrite Hk, recv_done_nowatch by exact Hw.
    assert (He' : exit_at (deliver (now w + grace) SIGKILL w2) =
                  earlier (exit_at w) (after (now w + grace) (on_kill (child w))))
      by reflexivity.
    rewrite He'.
    destruct (earlier (exit_at w) _) as [[x st]|] eqn:He; cbn;
      (split; [now rewrite <- app_assoc|]); [|reflexivity].
    f_equal. assert (now w + grace <= x); [|lia].
    destruct (exit_at w) as [[e est]|] eqn:E, (on_kill (child w)) as [[d kst]|];
      cbn in He; try discriminate.
    + pose proof (alive_at_lt _ _ _ _ Ha eq_refl).
      destruct (Z.ltb_spec (now w + grace + Z.of_nat d) e);
        inversion He; subst; lia.
    + inversion He; subst. pose proof (alive_at_lt _ _ _ _ Ha eq_refl). lia.
    + inversion He; subst; lia.
Qed.

Lemma run_ctx_late c runP grace w :
  now w + runP < c ->
  run (Some c) runP grace w = run None runP grace w.
Proof.
  intros Hc. unfold run, bind, NewTicker.
  destruct (Z.leb_spec runP 0); [reflexivity|].
  unfold cmd_Start. destruct (start_err (child w)); [reflexivity|].
  unfold running, bind. rewrite select_ctx_late; [reflexivity|].
  cbn. lia.
Qed.

(** ** A cycle that is never cancelled *)

(** From the request to exit to the end of the cycle. *)
Lemma terminating_observed grace w :
  watch w = None -> 0 < grace ->
  alive_at (exit_at w) (now w) = true ->
  let e1 := earlier (exit_at w) (after (now w) (on_term (child w))) in
  let k := now w + grace in
  let r := terminating grace w in
  if alive_at e1 k
  then signals (final r) =
         signals w ++ [EvSignal (now w) SIGTERM; EvSignal k SIGKILL] /\
       outcome r = finish (earlier e1 (after k (on_kill (child w))))
  else signals (final r) = signals w ++ [EvSignal (now w) SIGTERM] /\
       outcome r = finish e1.
Proof.
  intros Hw Hg Ha e1 k r. subst r.
  rewrite terminating_nowatch by auto.
  assert (Hs : signalled SIGTERM msg_term w = deliver (now w) SIGTERM w)
    by (unfold signalled; now rewrite Ha).
  rewrite Hs. fold k. set (w1 := deliver _ _ w).
  assert (Hw1 : watch w1 = None) by exact Hw.
  assert (He1 : exit_at w1 = e1) by reflexivity.
  assert (Hsig1 : signals w1 = signals w ++ [EvSignal (now w) SIGTERM])
    by sigs.
  destruct (first_ready_grace k w1 Hw1) as (t & Hf & Htk & Hxx & Hat).
  change (now w1) with (now w) in *.
  assert (Hkill : forall ps,
    let w2 := set_picks ps (set_now k w1) in
    killing w2 = recv_done (signalled SIGKILL msg_kill w2)).
  { intros ps w2. apply killing_nowatch. exact Hw. }
  destruct (alive_at e1 k) eqn:Hal.
  - assert (HT : Z.max (now w) t = k).
    { destruct Hat as [->|(st & H)]; [lia|].
      rewrite He1 in H. pose proof (alive_at_lt _ _ _ _ Hal H). lia. }
    destruct (select_cases_nowatch _ _ _ Hw1 Hf) as
      [(c & Hin & _)|[(x & xs & Hin & Hp & Hle & ->)|(tk' & Hin & Hle & ->)]].
    + in_cases Hin.
    + rewrite He1 in Hp. pose proof (alive_at_lt _ _ _ _ Hal Hp).
      change (now w1) with (now w) in Hle. lia.
    + change (now w1) with (now w). rewrite HT, Hkill.
      set (w2 := set_picks _ _).
      assert (Hk : signalled SIGKILL msg_kill w2 = deliver k SIGKILL w2).
      { unfold signalled. change (exit_at w2) with e1.
        change (now w2) with k. now rewrite Hal. }
      rewrite Hk, recv_done_nowatch by exact Hw.
      change (exit_at (deliver k SIGKILL w2))
        with (earlier e1 (after k (on_kill (child w)))).
      destruct (earlier e1 _) as [[x st]|] eqn:He; cbn -[signals].
      * split.
        -- sigs.
        -- f_equal. pose proof (earlier_after_ge _ _ _ _ _ Hal He).
           change (now w1) with (now w). lia.
      * split; [|reflexivity]. sigs.
  - destruct (not_alive_at _ _ Hal) as (x1 & st1 & Hx1 & Hle1).
    assert (Hge : now w <= x1).
    { unfold e1 in Hx1. eapply earlier_after_ge; eauto. }
    rewrite Hx1.
    assert (HT : Z.max (now w) t = x1).
    { rewrite He1, Hx1 in Hxx. specialize (Hxx _ _ eq_refl).
      destruct Hat as [->|(st & H)]; [subst k; lia|].
      rewrite He1, Hx1 in H. inversion H; subst. lia. }
    destruct (select_cases_nowatch _ _ _ Hw1 Hf) as
      [(c & Hin & _)|[(x & xs & Hin & Hp & Hle & ->)|(tk' & Hin & Hle & ->)]].
    + in_cases Hin.
    + rewrite He1, Hx1 in Hp. injection Hp as <- <-.
      change (now w1) with (now w). rewrite HT. cbn -[signals]. split; auto.
    + in_tick Hin. change (now w1) with (now w) in *. rewrite HT in *.
      assert (Hxk : x1 = k) by lia. rewrite Hxk in *. rewrite Hkill.
      set (w2 := set_picks _ _).
      assert (Hk : signalled SIGKILL msg_kill w2 = emit (EvLog k msg_kill) w2).
      { unfold signalled. change (exit_at w2) with e1.
        change (now w2) with k. now rewrite Hal. }
      rewrite Hk, recv_done_nowatch by exact Hw.
      change (exit_at (emit (EvLog k msg_kill) w2)) with e1. rewrite Hx1.
      cbn -[signals]. split.
      * sigs.
      * f_equal. lia.
Qed.

Lemma run_observed runP grace w :
  0 < runP -> 0 < grace ->
  start_err (child w) = None ->
  let r := run None runP grace w in
  signals (final r) =
    signals w ++ fst (escalation (now w) runP grace (child w)) /\
  outcome r = snd (escalation (now w) runP grace (child w)).
Proof.
  intros Hr Hg Hs r. subst r. unfold escalation.
  set (e0 := after (now w) (self_exit (child w))).
  set (tk := now w + runP).
  destruct (alive_at e0 tk) eqn:Hal.
  - assert (HT : term_time None (now w) runP = tk)
      by (unfold term_time; subst tk; lia).
    rewrite run_terminates by (auto; unfold alive_until; now rewrite HT).
    rewrite HT. set (w2 := set_picks _ _).
    pose proof (terminating_observed grace w2 eq_refl Hg Hal) as H.
    cbv zeta in H.
    change (exit_at w2) with e0 in H. change (now w2) with tk in H.
    change (child w2) with (child w) in H.
    assert (Hs2 : signals w2 = signals w) by sigs. rewrite Hs2 in H.
    destruct (alive_at (earlier e0 _) (tk + grace)); exact H.
  - destruct (not_alive_at _ _ Hal) as (x & st & Hx & Hle).
    assert (Hge : now w <= x).
    { unfold e0 in Hx. destruct (self_exit (child w)) as [[d ?]|];
        cbn in Hx; inversion Hx; lia. }
    rewrite Hx. cbn [fst snd finish]. rewrite app_nil_r.
    rewrite run_started by auto. unfold running, bind. fold tk.
    set (w1 := started None w).
    assert (Hw1 : watch w1 = None) by reflexivity.
    assert (He1 : exit_at w1 = Some (x, st)) by exact Hx.
    destruct (first_ready_running None tk w1 Hw1) as (t & Hf & Htk & Hcx & Hxx & Hat).
    assert (HT : Z.max (now w1) t = x).
    { change (now w1) with (now w). specialize (Hxx _ _ He1).
      destruct Hat as [->|[H|(st' & H)]]; [lia|discriminate|].
      rewrite He1 in H. inversion H; subst. lia. }
    destruct (select_cases_nowatch _ _ _ Hw1 Hf) as
      [(c & Hin & _)|[(x' & st' & Hin & Hp & Hle' & ->)|(tk' & Hin & Hle' & ->)]];
      rewrite ?HT in *.
    + in_cases Hin.
    + rewrite He1 in Hp. inversion Hp; subst. cbn -[signals]. split; auto.
      sigs.
    + in_tick Hin. assert (Hxk : x = tk) by lia. rewrite Hxk in *.
      rewrite (terminating_dead grace _ tk st)
        by first [exact eq_refl | exact Hg | exact He1 | cbn; lia].
      cbn -[signals]. split; auto.
      sigs.
Qed.

(** ** Where a returned value comes from *)

Lemma recv_done_returned w err w' :
  watch w = None -> recv_done w = Ok err w' ->
  exists x st, exit_at w' = Some (x, st) /\ x <= now w' /\ err = wait_result st.
Proof.
  intros Hw. rewrite recv_done_nowatch by exact Hw.
  destruct (exit_at w) as [[x st]|] eqn:He; [|discriminate].
  intros H. injection H as <- <-. exists x, st. cbn. repeat split; auto. lia.
Qed.

Lemma killing_returned w err w' :
  watch w = None -> killing w = Ok err w' ->
  exists x st, exit_at w' = Some (x, st) /\ x <= now w' /\ err = wait_result st.
Proof.
  intros Hw. rewrite killing_nowatch by exact Hw.
  apply recv_done_returned. now rewrite watch_signalled.
Qed.

Lemma terminating_returned grace w err w' :
  watch w = None -> terminating grace w = Ok err w' ->
  exists x st, exit_at w' = Some (x, st) /\ x <= now w' /\ err = wait_result st.
Proof.
  intros Hw. destruct (Z.leb_spec grace 0) as [Hg|Hg].
  { rewrite terminating_panics by auto. discriminate. }
  rewrite terminating_nowatch by auto.
  set (w1 := signalled _ _ w).
  assert (Hw1 : watch w1 = None) by (unfold w1; now rewrite watch_signalled).
  destruct (first_ready_grace (now w + grace) w1 Hw1) as (t & Hf & _).
  destruct (select_cases_nowatch _ _ _ Hw1 Hf) as
    [(c & Hin & _)
    |[(x' & st' & Hin & Hp & Hle & ->)|(tk' & Hin & Hle & ->)]].
  - in_cases Hin.
  - intros H. injection H as <- <-. exists x', st'. cbn. auto.
  - apply killing_returned. exact Hw1.
Qed.

Lemma running_returned ctx tk grace w err w' :
  watch w = None -> running ctx tk grace w = Ok err w' ->
  exists x st, exit_at w' = Some (x, st) /\ x <= now w' /\ err = wait_result st.
Proof.
  intros Hw. unfold running, bind.
  destruct (first_ready_running ctx tk w Hw) as (t & Hf & _).
  destruct (select_cases_nowatch _ _ _ Hw Hf) as
    [(c & Hin & Hle & ->)
    |[(x' & st' & Hin & Hp & Hle & ->)|(tk' & Hin & Hle & ->)]].
  - apply terminating_returned. exact Hw.
  - intros H. injection H as <- <-. exists x', st'. cbn. auto.
  - apply terminating_returned. exact Hw.
Qed.

Lemma run_returned ctx runP grace w err w' :
  run ctx runP grace w = Ok err w' ->
  (exists msg,
     start_err (child w) = Some msg /\ err = Some (ErrLaunch msg) /\ w' = w) \/
  (start_err (child w) = None /\
   exists x st,
     exit_at w' = Some (x, st) /\ x <= now w' /\ err = wait_result st).
Proof.
  destruct (Z.leb_spec runP 0) as [Hr|Hr].
  { rewrite run_panics by auto. discriminate. }
  destruct (start_err (child w)) as [msg|] eqn:Hs.
  - rewrite (run_launch_error ctx runP grace w msg) by auto.
    intros H. injection H as <- <-. left. eauto.
  - rewrite run_started by auto. intros H. right. split; [reflexivity|].
    exact (running_returned ctx _ grace (started None w) err w' eq_refl H).
Qed.

Lemma wait_result_nil st : wait_result st = None <-> st = Exited 0.
Proof.
  split; [|intros ->; reflexivity].
  destruct st as [[| |]|]; try discriminate. reflexivity.
Qed.

(** * The earlier revision *)

(** From the SIGTERM statement to the return of [run], under a watcher
    whose context is done one grace period later. *)
Lemma v1_terminating_observed grace w :
  0 < grace ->
  watch w = Some (now w + grace) ->
  alive_at (exit_at w) (now w) = true ->
  let e1 := earlier (exit_at w) (after (now w) (on_term (child w))) in
  let k := now w + grace in
  let r := (signal_or_log SIGTERM msg_term ;;; recv_done) w in
  if alive_at e1 k
  then signals (final r) =
         signals w ++ [EvSignal (now w) SIGTERM; EvSignal k SIGKILL] /\
       outcome r = finish (earlier e1 (after k (on_kill (child w))))
  else signals (final r) = signals w ++ [EvSignal (now w) SIGTERM] /\
       outcome r = finish e1.
Proof.
  intros Hg Hw Ha e1 k r. subst r. unfold bind.
  rewrite (signal_or_log_early k SIGTERM msg_term w Hw) by (subst k; lia).
  assert (Hs : signalled SIGTERM msg_term w = deliver (now w) SIGTERM w)
    by (unfold signalled; now rewrite Ha).
  rewrite Hs. set (w1 := deliver _ _ w).
  assert (Hw1 : watch w1 = Some k) by exact Hw.
  assert (He1 : exit_at w1 = e1) by reflexivity.
  assert (Hsig1 : signals w1 = signals w ++ [EvSignal (now w) SIGTERM]) by sigs.
  rewrite recv_done_spec.
  destruct (alive_at e1 k) eqn:Hal.
  - rewrite (projected_alive k w1 Hw1) by (now rewrite He1).
    rewrite He1. change (child w1) with (child w).
    destruct (earlier e1 _) as [[x st]|] eqn:He.
    + pose proof (earlier_after_ge _ _ _ _ _ Hal He) as Hge.
      rewrite (wake_kills k x w1 Hw1); [|cbn; lia|now rewrite He1].
      cbn -[signals]. split; [sigs|]. f_equal. lia.
    + rewrite (expire_kills k w1 Hw1) by (now rewrite He1).
      cbn -[signals]. split; [sigs|reflexivity].
  - rewrite (projected_dead k w1 Hw1) by (now rewrite He1).
    rewrite He1. destruct (not_alive_at _ _ Hal) as (x1 & st1 & Hx1 & Hle1).
    assert (Hge : now w <= x1).
    { unfold e1 in Hx1. eapply earlier_after_ge; eauto. }
    rewrite Hx1. cbn -[signals wake]. rewrite now_wake. split.
    + change (signals (set_picks ?p ?v)) with (signals v).
      unfold wake. rewrite signals_settle_dead; [sigs|].
      intros k' Hk'. cbn in Hk'. rewrite Hw in Hk'. injection Hk' as <-.
      exact Hal.
    + f_equal. cbn. lia.
Qed.

Lemma cycle_v1_unfold ctx runF graceF w :
  0 < runF -> 0 < graceF -> runF + graceF < 2 ^ 63 ->
  ctx_not_before ctx (now w + runF + graceF) ->
  start_err (child w) = None ->
  cycle_v1 ctx runF graceF w =
    match select [CaseDone; CaseTick (now w + runF)]
            (started (Some (now w + runF + graceF))
                     (emit (EvLog (now w) "Starting...") w)) with
    | Ok (SelDone err) w' => Ok err w'
    | Ok _ w' => (signal_or_log SIGTERM msg_term ;;; recv_done) w'
    | Panic msg w' => Panic msg w'
    | Block w' => Block w'
    end.
Proof.
  intros Hr Hg Hsum Hc Hs. unfold cycle_v1, bind, log_Printf, WithTimeout.
  rewrite wrap64_small by lia. cbn [now emit].
  assert (Hk : min_opt ctx (Some (now w + (runF + graceF))) =
               Some (now w + runF + graceF)).
  { destruct ctx as [c|]; cbn in *; f_equal; lia. }
  rewrite Hk. unfold run_v1, bind, NewTicker.
  destruct (Z.leb_spec runF 0); [lia|]. unfold cmd_Start_ctx.
  cbn [now emit ctx_done child]. rewrite Hs.
  destruct (Z.leb_spec (now w + runF + graceF) (now w)); [lia|].
  destruct (select _ _) as [[]| |]; reflexivity.
Qed.

Lemma cycle_v1_launch_error ctx runF graceF w msg :
  0 < runF -> 0 < graceF -> runF + graceF < 2 ^ 63 ->
  ctx_not_before ctx (now w + runF + graceF) ->
  start_err (child w) = Some msg ->
  cycle_v1 ctx runF graceF w =
    Ok (Some (ErrLaunch msg)) (emit (EvLog (now w) "Starting...") w).
Proof.
  intros Hr Hg Hsum Hc Hs. unfold cycle_v1, bind, log_Printf, WithTimeout.
  rewrite wrap64_small by lia. cbn [now emit].
  assert (Hk : min_opt ctx (Some (now w + (runF + graceF))) =
               Some (now w + runF + graceF)).
  { destruct ctx as [c|]; cbn in *; f_equal; lia. }
  rewrite Hk. unfold run_v1, bind, NewTicker.
  destruct (Z.leb_spec runF 0); [lia|]. unfold cmd_Start_ctx.
  cbn [now emit ctx_done child]. now rewrite Hs.
Qed.

Lemma cycle_v1_observed ctx runF graceF w :
  0 < runF -> 0 < graceF -> runF + graceF < 2 ^ 63 ->
  ctx_not_before ctx (now w + runF + graceF) ->
  start_err (child w) = None ->
  let r := cycle_v1 ctx runF graceF w in
  signals (final r) =
    signals w ++ fst (escalation (now w) runF graceF (child w)) /\
  outcome r = snd (escalation (now w) runF graceF (child w)).
Proof.
  intros Hr Hg Hsum Hc Hs r. subst r.
  rewrite cycle_v1_unfold by auto. unfold escalation.
  set (e0 := after (now w) (self_exit (child w))).
  set (k := now w + runF + graceF). set (tk := now w + runF).
  set (w1 := started (Some k) _).
  assert (Hw1 : watch w1 = Some k) by reflexivity.
  assert (He1 : exit_at w1 = e0) by reflexivity.
  assert (Hs1 : signals w1 = signals w) by sigs.
  assert (Hge0 : forall x st, e0 = Some (x, st) -> now w <= x).
  { unfold e0. destruct (self_exit (child w)) as [[d ?]|]; cbn; [|discriminate].
    intros x st H. inversion H. lia. }
  destruct (first_ready w1 [CaseDone; CaseTick tk]) as [t|] eqn:Hf.
  2:{ cbn [first_ready fold_right ready_time] in Hf.
      destruct (option_map fst (projected_exit w1)); discriminate. }
  assert (Htk : t <= tk).
  { apply (first_ready_lower w1 _ t Hf (CaseTick tk)); [cbn; auto|reflexivity]. }
  assert (HTk : Z.max (now w1) t < k) by (cbn; subst tk k; lia).
  destruct (select_cases _ _ _ Hf) as
    [(c & Hin & _)|[(x & st & Hin & Hp & Hle & ->)|(tk' & Hin & Hle & ->)]].
  - in_cases Hin.
  - (* the child has exited by itself *)
    rewrite (wake_early k t w1 Hw1 HTk).
    assert (Hx : e0 = Some (x, st)).
    { rewrite <- He1. apply (projected_before k); auto. lia. }
    assert (Ht : t <= x).
    { apply (first_ready_lower w1 _ t Hf CaseDone); [cbn; auto|].
      cbn [ready_time]. now rewrite Hp. }
    pose proof (Hge0 _ _ Hx) as Hge. change (now w1) with (now w) in *.
    assert (Hal : alive_at e0 tk = false).
    { rewrite Hx. cbn. apply Z.ltb_ge. lia. }
    rewrite Hal, Hx. cbn -[signals]. split; [sigs|]. f_equal. lia.
  - (* the run ticker has ticked *)
    in_tick Hin. rewrite (wake_early k t w1 Hw1 HTk).
    change (now w1) with (now w) in *.
    assert (HT : Z.max (now w) t = tk) by (subst tk; lia). rewrite HT.
    set (w2 := set_picks _ _).
    destruct (alive_at e0 tk) eqn:Hal.
    + pose proof (v1_terminating_observed graceF w2 Hg) as H.
      cbv zeta in H. change (now w2) with tk in H.
      change (exit_at w2) with e0 in H. change (child w2) with (child w) in H.
      assert (Hs2 : signals w2 = signals w) by sigs. rewrite Hs2 in H.
      specialize (H ltac:(cbn; f_equal; subst tk k; lia) Hal).
      change (tk + graceF) with k in H.
      destruct (alive_at (earlier e0 _) k); exact H.
    + destruct (not_alive_at _ _ Hal) as (x & st & Hx & Hle').
      assert (Ht : t <= x).
      { apply (first_ready_lower w1 _ t Hf CaseDone); [cbn; auto|].
        cbn [ready_time]. rewrite (projected_dead k w1 Hw1), He1, Hx; [reflexivity|].
        rewrite He1, Hx. cbn. apply Z.ltb_ge. subst tk k. lia. }
      pose proof (Hge0 _ _ Hx) as Hge.
      assert (Hxk : x = tk) by lia.
      unfold bind.
      rewrite (signal_or_log_early k SIGTERM msg_term w2 Hw1)
        by (cbn; subst tk k; lia).
      assert (Hsg : signalled SIGTERM msg_term w2 = emit (EvLog tk msg_term) w2).
      { unfold signalled. change (exit_at w2) with e0.
        change (now w2) with tk. now rewrite Hal. }
      rewrite Hsg, recv_done_spec. set (w3 := emit _ w2).
      assert (Hw3 : watch w3 = Some k) by reflexivity.
      assert (Hd3 : alive_at (exit_at w3) k = false).
      { change (exit_at w3) with e0. rewrite Hx. cbn. apply Z.ltb_ge.
        subst tk k. lia. }
      rewrite (projected_dead k w3 Hw3 Hd3). change (exit_at w3) with e0.
      rewrite Hx. rewrite (wake_early k x w3 Hw3)
        by (cbn; subst tk k; lia).
      cbn -[signals]. split; [sigs|]. f_equal. lia.
Qed.

(** * The relay goroutine *)

Lemma cancelled_step a st :
  Relay.cancelled st = true -> Relay.cancelled (Relay.step a st) = true.
Proof.
  intros H. destruct a; cbn.
  - unfold Relay.notify.
    destruct (Relay.exited st), (Relay.sigchan st), (Relay.registered s); auto.
  - unfold Relay.relay_step.
    destruct (Relay.exited st), (Relay.sigchan st), (Relay.pc st); auto.
  - unfold Relay.main_goto. destruct (Relay.exited st); auto.
  - unfold Relay.main_fatal. destruct (Relay.exited st); auto.
Qed.

Lemma cancelled_exec acts st :
  Relay.cancelled st = true -> Relay.cancelled (Relay.exec acts st) = true.
Proof.
  revert st. induction acts as [|a acts IH]; intros st H; cbn; auto.
  apply IH. now apply cancelled_step.
Qed.

Lemma relay_invariant acts :
  let st := Relay.exec acts Relay.init in
  (Relay.pc st = Relay.AwaitFirst ->
     Relay.cancelled st = false /\ Relay.exited st <> Some 2) /\
  (Relay.pc st = Relay.AwaitSecond -> Relay.cancelled st = true).
Proof.
  cbv zeta.
  assert (H : forall st,
    ((Relay.pc st = Relay.AwaitFirst ->
        Relay.cancelled st = false /\ Relay.exited st <> Some 2) /\
     (Relay.pc st = Relay.AwaitSecond -> Relay.cancelled st = true)) ->
    (Relay.pc (Relay.exec acts st) = Relay.AwaitFirst ->
        Relay.cancelled (Relay.exec acts st) = false /\
        Relay.exited (Relay.exec acts st) <> Some 2) /\
    (Relay.pc (Relay.exec acts st) = Relay.AwaitSecond ->
        Relay.cancelled (Relay.exec acts st) = true)).
  { induction acts as [|a acts IH]; intros st Hst; [exact Hst|].
    cbn. apply IH. destruct Hst as [H1 H2].
    destruct st as [ch pc ca ph lg ex]. cbn in *.
    destruct a; cbn.
    - unfold Relay.notify; cbn.
      destruct ex, ch, (Relay.registered s); cbn; split; auto;
        intros Hpc; destruct (H1 Hpc); split; auto; discriminate.
    - unfold Relay.relay_step; cbn. destruct ex, ch, pc; cbn; split; auto;
        discriminate.
    - unfold Relay.main_goto; cbn. destruct ex; cbn; split; auto;
        intros Hpc; destruct (H1 Hpc); split; auto; discriminate.
    - unfold Relay.main_fatal; cbn. destruct ex; cbn; split; auto;
        intros Hpc; destruct (H1 Hpc); split; auto; discriminate. }
  apply H. cbn. split; [split; [auto|discriminate]|discriminate].
Qed.

(** * What the specification claims *)

(** ** The outcome of a cycle and the restart loop *)

(** C1, amended. When the child exits by itself before the run ticker
    ticks and before the context is done, [run] returns what [cmd.Wait()]
    reports.  After exit status 0 this is nil and [main] starts the next
    cycle at the instant of the exit.  After any other status it is an
    [*exec.ExitError], and [main] ends the supervisor through [log.Fatal]
    with status 1: no further cycle is started.

    And for every cycle whatsoever in which [run] returns: a nil result
    means that the child has exited with status 0, and the loop goes on to
    the next cycle; a result that is not nil is either the error of the
    launch or the exit error of a child that ended with another status,
    and it stops the loop, the supervisor ending with status 1. *)
Theorem restart_only_after_exit_status_0 ctx runF graceF c rest w :
  (forall d st,
     start_err c = None ->
     self_exit c = Some (d, st) ->
     Z.of_nat d < runF ->
     ctx_done ctx (now w + Z.of_nat d) = false ->
     exists w',
       run ctx runF graceF (set_child c w) = Ok (wait_result st) w' /\
       now w' = now w + Z.of_nat d /\
       trace w' = trace w ++ [EvStart (now w)] /\
       (st = Exited 0 ->
          main_loop ctx runF graceF (c :: rest) w =
          main_loop ctx runF graceF rest w') /\
       (st <> Exited 0 ->
          main_loop ctx runF graceF (c :: rest) w =
          Exit 1 (ErrExit st) (emit (EvFatal (now w') (ErrExit st)) w'))) /\
  (forall err w',
     run ctx runF graceF (set_child c w) = Ok err w' ->
     match err with
     | None =>
         main_loop ctx runF graceF (c :: rest) w =
           main_loop ctx runF graceF rest w' /\
         exists x, exit_at w' = Some (x, Exited 0) /\ x <= now w'
     | Some e =>
         main_loop ctx runF graceF (c :: rest) w =
           Exit 1 e (emit (EvFatal (now w') e) w') /\
         ((exists msg, start_err c = Some msg /\ e = ErrLaunch msg) \/
          (exists x st,
             exit_at w' = Some (x, st) /\ x <= now w' /\
             st <> Exited 0 /\ e = ErrExit st))
     end).
Proof.
  split.
  - intros d st Hs He Hd Hc.
    pose proof (run_early_exit ctx runF graceF (set_child c w) d st Hs He Hd Hc)
      as Hrun.
    eexists. split; [exact Hrun|]. repeat split.
    + intros ->. cbn [main_loop]. now rewrite Hrun.
    + intros Hne. cbn [main_loop]. rewrite Hrun.
      destruct st as [[| |]|]; try reflexivity. contradiction.
  - intros err w' Hrun. cbn [main_loop]. rewrite Hrun.
    destruct (run_returned _ _ _ _ _ _ Hrun)
      as [(msg & Hs & He & _)|(Hs & x & st & Hx & Hle & He)].
    + subst err. split; [reflexivity|]. left. exists msg. auto.
    + destruct err as [e|].
      * split; [reflexivity|]. right. exists x, st.
        repeat split; auto.
        -- intros ->. discriminate.
        -- destruct st as [[| |]|]; cbn in He; try discriminate;
             now injection He.
      * split; [reflexivity|]. symmetry in He.
        apply wait_result_nil in He. subst st. eauto.
Qed.

Lemma restart_witness :
  (exists w',
     run None 10 5 (set_child (quick 4 (Exited 0)) (fresh [])) = Ok None w' /\
     now w' = 4 /\
     main_loop None 10 5 [quick 4 (Exited 0); stubborn] (fresh []) =
     main_loop None 10 5 [stubborn] w') /\
  main_loop None 10 5 [stubborn; quick 4 (Exited 0)] (fresh []) =
    Exit 1 (ErrExit (Signaled SIGKILL))
      (emit (EvFatal 16 (ErrExit (Signaled SIGKILL)))
            (final (run None 10 5 (set_child stubborn (fresh []))))).
Proof.
  split.
  - destruct (proj1 (restart_only_after_exit_status_0 None 10 5
                       (quick 4 (Exited 0)) [stubborn] (fresh []))
                4%nat (Exited 0))
      as (w' & H1 & H2 & _ & H4 & _); try reflexivity.
    exists w'. repeat split; auto.
  - exact (proj1 (proj2 (restart_only_after_exit_status_0 None 10 5
                           stubborn [quick 4 (Exited 0)] (fresh []))
                    (Some (ErrExit (Signaled SIGKILL)))
                    (final (run None 10 5 (set_child stubborn (fresh []))))
                    eq_refl)).
Defined.

(** A child that exits by itself with status 1 ends the supervisor: the
    second launch never happens. *)
Lemma restart_counterexample :
  main_loop None 10 5 [quick 4 (Exited 1); quick 4 (Exited 0)] (fresh []) =
  Exit 1 (ErrExit (Exited 1))
    {| now := 4; picks := []; child := quick 4 (Exited 1);
       exit_at := Some (4, Exited 1); watch := None;
       trace := [EvStart 0; EvFatal 4 (ErrExit (Exited 1))] |}.
Proof. reflexivity. Qed.

(** C2, amended. With a positive run period and a positive grace period,
    for a child that ignores SIGTERM and does not exit by itself before the
    grace period is over, one cycle starts the child, sends it SIGTERM when
    the Running wait ends and SIGKILL exactly one grace period later, and
    does nothing else.  [run] then returns what [cmd.Wait()] reports, at
    the instant the child exits and not before the SIGKILL; if the child
    never exits, [run] never returns. *)
Theorem escalation_term_then_kill ctx runP grace w :
  0 < runP -> 0 < grace ->
  start_err (child w) = None ->
  on_term (child w) = None ->
  alive_until (child w) (now w) (term_time ctx (now w) runP + grace) ->
  trace (final (run ctx runP grace w)) =
    trace w ++ [EvStart (now w);
                EvSignal (term_time ctx (now w) runP) SIGTERM;
                EvSignal (term_time ctx (now w) runP + grace) SIGKILL] /\
  outcome (run ctx runP grace w) =
    finish (earlier (after (now w) (self_exit (child w)))
                    (after (term_time ctx (now w) runP + grace)
                           (on_kill (child w)))) /\
  forall err t,
    outcome (run ctx runP grace w) = Returned err t ->
    term_time ctx (now w) runP + grace <= t.
Proof.
  intros Hr Hg Hs Ht Ha. set (T := term_time ctx (now w) runP) in *.
  assert (Ha' : alive_until (child w) (now w) T)
    by (eapply alive_at_mono; [exact Ha|lia]).
  rewrite run_terminates by auto. fold T.
  set (w2 := set_picks _ _).
  destruct (terminating_escalates grace w2) as [Htr Hout]; auto.
  change (trace w2) with (trace w ++ [EvStart (now w)]) in Htr.
  change (now w2) with T in *.
  change (exit_at w2) with (after (now w) (self_exit (child w))) in Hout.
  change (child w2) with (child w) in Hout.
  rewrite Htr, Hout, <- app_assoc. repeat split.
  intros err t. unfold finish.
  destruct (earlier _ _) as [[x st]|] eqn:He; [|discriminate].
  intros H; inversion H; subst.
  exact (earlier_after_ge _ _ _ _ _ Ha He).
Qed.

Lemma escalation_witness :
  trace (final (run (Some 3) 10 5 (fresh []))) =
    [EvStart 0; EvSignal 3 SIGTERM; EvSignal 8 SIGKILL] /\
  outcome (run (Some 3) 10 5 (fresh [])) =
    Returned (Some (ErrExit (Signaled SIGKILL))) 9 /\
  forall err t,
    outcome (run (Some 3) 10 5 (fresh [])) = Returned err t -> 8 <= t.
Proof.
  apply (escalation_term_then_kill (Some 3) 10 5 (fresh []));
    reflexivity.
Defined.

(** With a grace period of zero the cycle panics right after SIGTERM: no
    SIGKILL follows and [run] does not return. *)
Lemma escalation_counterexample :
  run None 10 0 (fresh []) =
    Panic "non-positive interval for NewTicker"
      {| now := 10; picks := []; child := stubborn; exit_at := None;
         watch := None; trace := [EvStart 0; EvSignal 10 SIGTERM] |} /\
  forall t, ~ In (EvSignal t SIGKILL)
                 (trace (final (run None 10 0 (fresh [])))).
Proof.
  split; [reflexivity|].
  intros t [H|[H|[]]]; discriminate.
Qed.

(** ** Cancellation *)

(** C3. When the context is cancelled at an instant [c] of the Running
    wait, with the child still running, SIGTERM is sent at [c] itself, and
    whatever the cycle does afterwards, a SIGKILL is only ever sent at
    [c + grace]: the grace period is not cut short by the cancellation
    that is still in force.  And a context cancelled only after the run
    period, that is during the Terminating or Killing waits or later,
    changes nothing at all to the cycle. *)
Theorem cancellation_keeps_the_grace_period c runP grace w :
  (now w <= c -> c < now w + runP ->
   start_err (child w) = None ->
   alive_until (child w) (now w) c ->
   exists rest,
     trace (final (run (Some c) runP grace w)) =
       trace w ++ EvStart (now w) :: EvSignal c SIGTERM :: rest /\
     forall t, In (EvSignal t SIGKILL) rest -> t = c + grace) /\
  (now w + runP < c ->
   run (Some c) runP grace w = run None runP grace w).
Proof.
  split.
  - intros H1 H2 Hs Ha.
    assert (HT : term_time (Some c) (now w) runP = c) by (unfold term_time; lia).
    destruct (run_trace (Some c) runP grace w) as (rest & Htr & Hk);
      [lia|exact Hs|now rewrite HT|].
    rewrite HT in *. exists rest. auto.
  - apply run_ctx_late.
Qed.

Lemma cancellation_witness :
  (exists rest,
     trace (final (run (Some 3) 10 5 (fresh []))) =
       [] ++ EvStart 0 :: EvSignal 3 SIGTERM :: rest /\
     forall t, In (EvSignal t SIGKILL) rest -> t = 3 + 5) /\
  run (Some 12) 10 5 (fresh []) = run None 10 5 (fresh []).
Proof.
  split.
  - apply (proj1 (cancellation_keeps_the_grace_period 3 10 5 (fresh [])));
      try reflexivity; cbn; lia.
  - apply (proj2 (cancellation_keeps_the_grace_period 12 10 5 (fresh [])));
      cbn; lia.
Defined.

(** C4. When the child exits by itself before the run ticker ticks and
    before the context is done, [run] returns what [cmd.Wait()] reports for
    the real exit status of the child, at the instant of the exit, and the
    only thing the cycle has done is to start the child: no SIGTERM and no
    SIGKILL is sent, or even attempted. *)
Theorem early_exit_is_the_outcome ctx runP grace w d st :
  start_err (child w) = None ->
  self_exit (child w) = Some (d, st) ->
  Z.of_nat d < runP ->
  ctx_done ctx (now w + Z.of_nat d) = false ->
  outcome (run ctx runP grace w) =
    Returned (wait_result st) (now w + Z.of_nat d) /\
  trace (final (run ctx runP grace w)) = trace w ++ [EvStart (now w)] /\
  signals (final (run ctx runP grace w)) = signals w.
Proof.
  intros Hs He Hd Hc.
  rewrite (run_early_exit ctx runP grace w d st) by auto.
  cbn -[signals]. repeat split. sigs.
Qed.

Lemma early_exit_witness :
  outcome (run None 10 5 (world0 0 [] (quick 4 (Exited 3)))) =
    Returned (Some (ErrExit (Exited 3))) 4 /\
  trace (final (run None 10 5 (world0 0 [] (quick 4 (Exited 3))))) =
    [EvStart 0] /\
  signals (final (run None 10 5 (world0 0 [] (quick 4 (Exited 3))))) = [].
Proof.
  apply (early_exit_is_the_outcome None 10 5 (world0 0 [] (quick 4 (Exited 3)))
           4%nat (Exited 3)); reflexivity.
Defined.

(** C5, amended. When the child exits at the very instant the run ticker
    ticks, either case of the [select] may be taken.  With a positive
    grace period [run] returns what [cmd.Wait()] reports for the exit of
    the child at that instant in both cases, and no signal reaches the
    child; but when the tick is taken, [run] does go through the SIGTERM
    statement, whose failure it logs. *)
Theorem tie_returns_the_exit_either_way ctx runP grace w d st :
  0 < runP -> 0 < grace ->
  start_err (child w) = None ->
  self_exit (child w) = Some (d, st) ->
  Z.of_nat d = runP ->
  ctx_not_before ctx (now w + runP) ->
  outcome (run ctx runP grace w) =
    Returned (wait_result st) (now w + runP) /\
  signals (final (run ctx runP grace w)) = signals w /\
  (trace (final (run ctx runP grace w)) = trace w ++ [EvStart (now w)] \/
   trace (final (run ctx runP grace w)) =
     trace w ++ [EvStart (now w); EvLog (now w + runP) msg_term]).
Proof.
  intros Hr Hg Hs He Hd Hc.
  rewrite run_started by auto. unfold running, bind.
  set (w1 := started None w). set (tk := now w + runP).
  assert (Hw1 : watch w1 = None) by reflexivity.
  assert (He1 : exit_at w1 = Some (tk, st)).
  { cbn. rewrite He. cbn. subst tk. now rewrite Hd. }
  destruct (first_ready_running ctx tk w1 Hw1)
    as (t & Hf & Htk & Hcx & Hxx & Hat).
  assert (HT : Z.max (now w1) t = tk).
  { change (now w1) with (now w).
    destruct Hat as [->|[->|(st' & H)]].
    - subst tk; lia.
    - cbn in Hc. subst tk. lia.
    - rewrite He1 in H. inversion H; subst. subst tk. lia. }
  assert (Hdead : forall ps,
    outcome (terminating grace (set_picks ps (set_now tk w1))) =
      Returned (wait_result st) tk /\
    signals (final (terminating grace (set_picks ps (set_now tk w1)))) =
      signals w /\
    trace (final (terminating grace (set_picks ps (set_now tk w1)))) =
      trace w ++ [EvStart (now w); EvLog tk msg_term]).
  { intros ps.
    rewrite (terminating_dead grace _ tk st)
      by first [exact eq_refl | exact Hg | exact He1 | cbn; lia].
    cbn -[signals]. repeat split; [sigs|now rewrite <- app_assoc]. }
  destruct (select_cases_nowatch _ _ _ Hw1 Hf) as
    [(c & Hin & Hle & ->)
    |[(x' & st' & Hin & Hp & Hle & ->)|(tk' & Hin & Hle & ->)]];
    rewrite HT.
  - destruct (Hdead (tl (picks w1))) as (H1 & H2 & H3). auto.
  - rewrite He1 in Hp. injection Hp as <- <-.
    cbn -[signals]. repeat split; [sigs|auto].
  - destruct (Hdead (tl (picks w1))) as (H1 & H2 & H3). auto.
Qed.

Lemma tie_witness :
  outcome (run None 10 5 (world0 0 [0%nat] (quick 10 (Exited 3)))) =
    Returned (Some (ErrExit (Exited 3))) 10 /\
  signals (final (run None 10 5 (world0 0 [0%nat] (quick 10 (Exited 3))))) =
    [] /\
  (trace (final (run None 10 5 (world0 0 [0%nat] (quick 10 (Exited 3))))) =
     [EvStart 0] \/
   trace (final (run None 10 5 (world0 0 [0%nat] (quick 10 (Exited 3))))) =
     [EvStart 0; EvLog 10 msg_term]).
Proof.
  apply (tie_returns_the_exit_either_way None 10 5
           (world0 0 [0%nat] (quick 10 (Exited 3))) 10%nat (Exited 3));
    try reflexivity; cbn; auto.
Defined.

(** The exit of the child and the tick are both ready at instant 10, and
    [select] takes the tick: [run] goes on to the SIGTERM statement. *)
Lemma tie_counterexample :
  is_ready (wake 10 tie_running) CaseDone = true /\
  is_ready (wake 10 tie_running) (CaseTick 10) = true /\
  select [CaseCtx None; CaseDone; CaseTick 10] tie_running =
    Ok SelTick (set_picks [] (wake 10 tie_running)) /\
  trace (final (run None 10 5 (world0 0 [1%nat] (quick 10 (Exited 3))))) =
    [EvStart 0; EvLog 10 msg_term].
Proof. repeat split. Qed.

(** C6. The cancellation is never undone: no step of the supervisor
    clears the flag that the relay raises, and a context that is done when
    a cycle begins is still done when the cycle ends, hence when the next
    one begins.  A cycle that enters the Running wait with the context
    done and its child running does not wait for the run ticker: SIGTERM is
    sent at the very instant the child was started. *)
Theorem cancellation_is_sticky_and_seen_at_once ctx runP grace w :
  ctx_done ctx (now w) = true ->
  (forall acts st,
     Relay.cancelled st = true ->
     Relay.cancelled (Relay.exec acts st) = true) /\
  ctx_done ctx (now (final (run ctx runP grace w))) = true /\
  (0 < runP ->
   start_err (child w) = None ->
   alive_until (child w) (now w) (now w) ->
   exists rest,
     trace (final (run ctx runP grace w)) =
       trace w ++ EvStart (now w) :: EvSignal (now w) SIGTERM :: rest).
Proof.
  intros Hc. split; [exact cancelled_exec|]. split.
  - eapply ctx_done_later; [exact Hc|apply advances_run].
  - intros Hr Hs Ha.
    assert (HT : term_time ctx (now w) runP = now w).
    { unfold term_time. destruct ctx as [c|]; [|discriminate].
      cbn in Hc. apply Z.leb_le in Hc. lia. }
    destruct (run_trace ctx runP grace w) as (rest & Htr & _);
      [lia|exact Hs|now rewrite HT|].
    rewrite HT in Htr. eauto.
Qed.

Lemma cancellation_seen_witness :
  ctx_done (Some 3) (now (final (run (Some 3) 10 5 (world0 20 [] stubborn)))) =
    true /\
  exists rest,
    trace (final (run (Some 3) 10 5 (world0 20 [] stubborn))) =
      [] ++ EvStart 20 :: EvSignal 20 SIGTERM :: rest.
Proof.
  destruct (cancellation_is_sticky_and_seen_at_once (Some 3) 10 5
              (world0 20 [] stubborn) eq_refl) as (_ & H2 & H3).
  split; [exact H2|]. apply H3; [lia|reflexivity|reflexivity].
Defined.

(** ** The relay *)

(** C7. The relay goroutine takes the first signal out of the channel at
    its first receive: it logs the signal and cancels the context, and the
    process goes on, the main goroutine where it was.  At its second
    receive, whatever the phase of the cycle, the kill wait included, it
    logs the signal and panics: the process is over, with status 2, and
    nothing happens any more.  The first receive is the one and only step
    that cancels: the relay waits at it exactly as long as the context is
    not cancelled. *)
Theorem relay_first_cancels_second_exits st s q :
  Relay.exited st = None ->
  Relay.sigchan st = s :: q ->
  (Relay.pc st = Relay.AwaitFirst ->
   Relay.relay_step st =
     Some {| Relay.sigchan := q; Relay.pc := Relay.AwaitSecond;
             Relay.cancelled := true; Relay.phase := Relay.phase st;
             Relay.log := Relay.log st ++ [Relay.got s "shutting down..."];
             Relay.exited := None |}) /\
  (Relay.pc st = Relay.AwaitSecond ->
   exists st',
     Relay.relay_step st = Some st' /\
     Relay.exited st' = Some 2 /\
     Relay.phase st' = Relay.phase st /\
     Relay.log st' = Relay.log st ++ [Relay.got s "exiting!"] /\
     forall a, Relay.step a st' = st') /\
  (forall acts,
     Relay.pc (Relay.exec acts Relay.init) = Relay.AwaitFirst <->
     Relay.cancelled (Relay.exec acts Relay.init) = false).
Proof.
  intros Hex Hch. split; [|split].
  - intros Hpc. unfold Relay.relay_step. now rewrite Hex, Hch, Hpc.
  - intros Hpc. unfold Relay.relay_step. rewrite Hex, Hch, Hpc.
    eexists. split; [reflexivity|]. cbn. repeat split.
    intros []; reflexivity.
  - intros acts. pose proof (relay_invariant acts) as [H1 H2]. cbv zeta in *.
    split; [intros H; now apply H1|].
    intros Hc. destruct (Relay.pc _); auto.
    rewrite H2 in Hc; [discriminate|reflexivity].
Qed.

Lemma relay_witness :
  Relay.relay_step (Relay.exec [Relay.Notify SIGINT] Relay.init) =
    Some {| Relay.sigchan := []; Relay.pc := Relay.AwaitSecond;
            Relay.cancelled := true; Relay.phase := Relay.Launching;
            Relay.log := ["Got interrupt (2) signal, shutting down..."%string];
            Relay.exited := None |} /\
  exists st',
    Relay.relay_step second_signal_pending = Some st' /\
    Relay.exited st' = Some 2 /\
    Relay.phase st' = Relay.Killing.
Proof.
  split.
  - apply (proj1 (relay_first_cancels_second_exits
                    (Relay.exec [Relay.Notify SIGINT] Relay.init) SIGINT []
                    eq_refl eq_refl)).
    reflexivity.
  - destruct (proj1 (proj2 (relay_first_cancels_second_exits
                              second_signal_pending SIGTERM []
                              eq_refl eq_refl)) eq_refl)
      as (st' & H1 & H2 & H3 & _).
    exists st'. auto.
Defined.

(** ** Launch errors and panics *)

(** C8, amended. With a positive run period, when the command cannot be
    started the cycle returns the error of [cmd.Start()] without having
    started anything, and [main] logs it with [log.Fatal] and ends the
    supervisor with status 1: no further cycle is attempted. *)
Theorem launch_error_is_fatal ctx runF graceF c rest w msg :
  0 < runF ->
  start_err c = Some msg ->
  run ctx runF graceF (set_child c w) =
    Ok (Some (ErrLaunch msg)) (set_child c w) /\
  main_loop ctx runF graceF (c :: rest) w =
    Exit 1 (ErrLaunch msg)
         (emit (EvFatal (now w) (ErrLaunch msg)) (set_child c w)).
Proof.
  intros Hr Hs.
  assert (H : run ctx runF graceF (set_child c w) =
              Ok (Some (ErrLaunch msg)) (set_child c w))
    by (apply run_launch_error; auto).
  split; [exact H|]. cbn [main_loop]. now rewrite H.
Qed.

Lemma launch_error_witness :
  run None 10 5 (set_child missing (fresh [])) =
    Ok (Some (ErrLaunch "executable file not found in $PATH"))
       (set_child missing (fresh [])) /\
  main_loop None 10 5 [missing; stubborn] (fresh []) =
    Exit 1 (ErrLaunch "executable file not found in $PATH")
      (emit (EvFatal 0 (ErrLaunch "executable file not found in $PATH"))
            (set_child missing (fresh []))).
Proof.
  apply (launch_error_is_fatal None 10 5 missing [stubborn] (fresh []));
    reflexivity.
Defined.

(** With a run period of zero the launch is never attempted: the cycle
    panics instead of returning the launch error, and nothing is logged by
    [log.Fatal]. *)
Lemma launch_error_counterexample :
  run None 0 5 (set_child missing (fresh [])) =
    Panic "non-positive interval for NewTicker"
          (set_child missing (fresh [])) /\
  main_loop None 0 5 [missing; stubborn] (fresh []) =
    Crash "non-positive interval for NewTicker"
          (set_child missing (fresh [])).
Proof. split; reflexivity. Qed.

(** C9. A run period that is zero or negative makes [run] panic in
    [time.NewTicker] before anything is started.  A grace period that is
    zero or negative makes a cycle whose child is still running at the end
    of the Running wait panic in [time.NewTicker] right after SIGTERM has
    been sent: nothing else has been done, no SIGKILL in particular. *)
Theorem non_positive_periods_panic ctx runP grace w :
  (runP <= 0 ->
     run ctx runP grace w = Panic "non-positive interval for NewTicker" w) /\
  (0 < runP -> grace <= 0 ->
   start_err (child w) = None ->
   alive_until (child w) (now w) (term_time ctx (now w) runP) ->
   exists w',
     run ctx runP grace w = Panic "non-positive interval for NewTicker" w' /\
     trace w' =
       trace w ++ [EvStart (now w);
                   EvSignal (term_time ctx (now w) runP) SIGTERM]).
Proof.
  split.
  - apply run_panics.
  - intros Hr Hg Hs Ha. rewrite run_terminates by auto.
    set (w2 := set_picks _ _).
    rewrite terminating_panics by auto.
    eexists. split; [reflexivity|].
    unfold signalled.
    change (exit_at w2) with (after (now w) (self_exit (child w))).
    change (now w2) with (term_time ctx (now w) runP).
    unfold alive_until in Ha. rewrite Ha. cbn. now rewrite <- app_assoc.
Qed.

Lemma non_positive_periods_witness :
  run None 0 5 (fresh []) =
    Panic "non-positive interval for NewTicker" (fresh []) /\
  exists w',
    run None 10 0 (world0 7 [] stubborn) =
      Panic "non-positive interval for NewTicker" w' /\
    trace w' = [] ++ [EvStart 7; EvSignal (term_time None 7 10) SIGTERM].
Proof.
  split.
  - apply (proj1 (non_positive_periods_panic None 0 5 (fresh []))). lia.
  - apply (proj2 (non_positive_periods_panic None 10 0 (world0 7 [] stubborn)));
      try reflexivity; lia.
Defined.

(** ** The two revisions of [run] *)

(** C10, amended. As long as the context is not cancelled before the run
    period and the grace period are both over, and these are positive with
    a sum that fits in a [time.Duration], a cycle of the earlier revision
    and a cycle of the current one send the same signals to the child at
    the same instants and end in the same way: the same return value at
    the same instant, or no return at all. *)
Theorem revisions_agree_without_cancellation ctx runF graceF w :
  0 < runF -> 0 < graceF -> runF + graceF < 2 ^ 63 ->
  ctx_not_before ctx (now w + runF + graceF) ->
  signals (final (cycle_v1 ctx runF graceF w)) =
    signals (final (run ctx runF graceF w)) /\
  outcome (cycle_v1 ctx runF graceF w) = outcome (run ctx runF graceF w).
Proof.
  intros Hr Hg Hsum Hc.
  assert (Hrun : run ctx runF graceF w = run None runF graceF w).
  { destruct ctx as [c|]; [|reflexivity]. apply run_ctx_late. cbn in Hc. lia. }
  rewrite Hrun.
  destruct (start_err (child w)) as [msg|] eqn:Hs.
  - rewrite (run_launch_error None runF graceF w msg Hr Hs).
    rewrite (cycle_v1_launch_error ctx runF graceF w msg) by auto.
    cbn -[signals]. split; [sigs|reflexivity].
  - destruct (cycle_v1_observed ctx runF graceF w Hr Hg Hsum Hc Hs) as [H1 H2].
    destruct (run_observed runF graceF w Hr Hg Hs) as [H3 H4].
    cbv zeta in *. rewrite H1, H2, H3, H4. auto.
Qed.

Lemma revisions_agree_witness :
  signals (final (cycle_v1 None 10 5 (fresh []))) =
    signals (final (run None 10 5 (fresh []))) /\
  outcome (cycle_v1 None 10 5 (fresh [])) = outcome (run None 10 5 (fresh [])).
Proof.
  apply (revisions_agree_without_cancellation None 10 5 (fresh []));
    cbn; auto; lia.
Defined.

(** A context cancelled at instant 3 of a run period of 10: the earlier
    revision kills the child at once and never sends SIGTERM, the current
    one sends SIGTERM and waits for the grace period. *)
Lemma revisions_counterexample :
  signals (final (cycle_v1 (Some 3) 10 5 (fresh []))) =
    [EvSignal 3 SIGKILL] /\
  signals (final (run (Some 3) 10 5 (fresh []))) =
    [EvSignal 3 SIGTERM; EvSignal 8 SIGKILL] /\
  outcome (cycle_v1 (Some 3) 10 5 (fresh [])) =
    Returned (Some (ErrExit (Signaled SIGKILL))) 4 /\
  outcome (run (Some 3) 10 5 (fresh [])) =
    Returned (Some (ErrExit (Signaled SIGKILL))) 9.
Proof. repeat split. Qed.

(** * Further properties of the code *)

(** ** One cycle of the current revision *)

Lemma term_time_bounds ctx t0 runP :
  0 < runP -> t0 <= term_time ctx t0 runP <= t0 + runP.
Proof. intros H. unfold term_time. destruct ctx; lia. Qed.

(** The child has exited by the end of the Running wait: [run] returns
    its exit, through the [done] case or, on a tie, through the Terminating
    phase. *)
Lemma running_dead ctx runP grace w x st :
  watch w = None -> 0 < runP ->
  exit_at w = Some (x, st) -> now w <= x ->
  x <= term_time ctx (now w) runP ->
  running ctx (now w + runP) grace w =
    Ok (wait_result st) (set_picks (tl (picks w)) (set_now x w)) \/
  running ctx (now w + runP) grace w =
    terminating grace (set_picks (tl (picks w)) (set_now x w)).
Proof.
  intros Hw Hr He Hn Hx. unfold running, bind.
  destruct (first_ready_running ctx (now w + runP) w Hw)
    as (t & Hf & Htk & Hcx & Hxx & Hat).
  assert (HT : Z.max (now w) t = x).
  { specialize (Hxx _ _ He). unfold term_time in Hx.
    destruct Hat as [->|[->|(st' & H)]].
    - destruct ctx as [c|]; lia.
    - lia.
    - rewrite He in H. injection H as -> _. lia. }
  destruct (select_cases_nowatch _ _ _ Hw Hf) as
    [(c & Hin & Hle & ->)
    |[(x' & st' & Hin & Hp & Hle & ->)|(tk' & Hin & Hle & ->)]];
    rewrite HT; auto.
  rewrite He in Hp. injection Hp as <- <-. auto.
Qed.

(** The signals and the outcome of any cycle with positive periods. *)
Lemma run_observed_ctx ctx runP grace w :
  0 < runP -> 0 < grace ->
  start_err (child w) = None ->
  signals (final (run ctx runP grace w)) =
    signals w ++ fst (cycle_result ctx (now w) runP grace (child w)) /\
  outcome (run ctx runP grace w) =
    snd (cycle_result ctx (now w) runP grace (child w)).
Proof.
  intros Hr Hg Hs. unfold cycle_result.
  set (e0 := after (now w) (self_exit (child w))).
  set (T := term_time ctx (now w) runP).
  destruct (alive_at e0 T) eqn:Hal.
  - rewrite run_terminates by auto. fold T. set (w2 := set_picks _ _).
    pose proof (terminating_observed grace w2 eq_refl Hg Hal) as H.
    cbv zeta in H.
    change (exit_at w2) with e0 in H. change (now w2) with T in H.
    change (child w2) with (child w) in H.
    assert (Hs2 : signals w2 = signals w) by sigs. rewrite Hs2 in H.
    destruct (alive_at (earlier e0 _) (T + grace)); exact H.
  - destruct (not_alive_at _ _ Hal) as (x & st & Hx & Hle).
    assert (Hge : now w <= x).
    { unfold e0 in Hx. destruct (self_exit (child w)) as [[d ?]|];
        cbn in Hx; inversion Hx; lia. }
    rewrite Hx. cbn [fst snd finish]. rewrite app_nil_r.
    rewrite run_started by auto.
    destruct (running_dead ctx runP grace (started None w) x st)
      as [H|H]; auto; change (now (started None w)) with (now w) in H;
      rewrite H.
    + cbn -[signals]. split; [sigs|reflexivity].
    + rewrite (terminating_dead grace _ x st)
        by first [exact eq_refl | exact Hg | exact Hx | cbn; lia].
      cbn -[signals]. split; [sigs|reflexivity].
Qed.

Lemma earlier_after_le e t d s x st :
  earlier e (after t (Some (d, s))) = Some (x, st) -> x <= t + Z.of_nat d.
Proof.
  destruct e as [[a ast]|]; cbn.
  - destruct (Z.ltb_spec (t + Z.of_nat d) a);
      intros Hx; inversion Hx; subst; lia.
  - intros Hx; inversion Hx; subst; lia.
Qed.

Lemma earlier_after_some e t d s :
  earlier e (after t (Some (d, s))) <> None.
Proof.
  destruct e as [[a ast]|]; cbn; [|discriminate].
  destruct (_ <? _); discriminate.
Qed.

(** The child exits after the request and before the grace ticker ticks. *)
Lemma terminating_exits grace w x st :
  watch w = None -> 0 < grace ->
  alive_at (exit_at w) (now w) = true ->
  earlier (exit_at w) (after (now w) (on_term (child w))) = Some (x, st) ->
  x < now w + grace ->
  terminating grace w =
    Ok (wait_result st)
       (set_picks (tl (picks w)) (set_now x (deliver (now w) SIGTERM w))).
Proof.
  intros Hw Hg Ha He Hx. rewrite terminating_nowatch by auto.
  assert (Hs : signalled SIGTERM msg_term w = deliver (now w) SIGTERM w)
    by (unfold signalled; now rewrite Ha).
  rewrite Hs. set (w1 := deliver _ _ w).
  assert (Hw1 : watch w1 = None) by exact Hw.
  assert (He1 : exit_at w1 = Some (x, st)) by exact He.
  pose proof (earlier_after_ge _ _ _ _ _ Ha He) as Hge.
  destruct (first_ready_grace (now w + grace) w1 Hw1)
    as (t & Hf & Htk & Hxx & Hat).
  assert (HT : Z.max (now w1) t = x).
  { change (now w1) with (now w). specialize (Hxx _ _ He1).
    destruct Hat as [->|(st' & H)]; [lia|].
    rewrite He1 in H. injection H as -> _. lia. }
  destruct (select_cases_nowatch _ _ _ Hw1 Hf) as
    [(c & Hin & _)
    |[(x' & st' & Hin & Hp & Hle & ->)|(tk' & Hin & Hle & ->)]];
    rewrite ?HT in *.
  - in_cases Hin.
  - rewrite He1 in Hp. injection Hp as <- <-. reflexivity.
  - in_tick Hin. lia.
Qed.

(** X1. Whatever the periods, the context, the child and the choices of
    [select], one cycle sends the child nothing at all, or one SIGTERM at
    the end of the Running wait, or that SIGTERM followed by one SIGKILL
    exactly one grace period later: never a SIGKILL without the SIGTERM,
    never two signals of a kind. *)
Theorem cycle_sends_term_then_kill_at_most ctx runP grace w :
  exists s,
    signals (final (run ctx runP grace w)) = signals w ++ s /\
    (s = [] \/
     s = [EvSignal (term_time ctx (now w) runP) SIGTERM] \/
     s = [EvSignal (term_time ctx (now w) runP) SIGTERM;
          EvSignal (term_time ctx (now w) runP + grace) SIGKILL]).
Proof.
  set (T := term_time ctx (now w) runP).
  destruct (Z.leb_spec runP 0) as [Hr|Hr].
  { rewrite run_panics by auto. exists []. split; [sigs|auto]. }
  destruct (start_err (child w)) as [msg|] eqn:Hs.
  { rewrite (run_launch_error ctx runP grace w msg) by auto.
    exists []. split; [sigs|auto]. }
  destruct (Z.leb_spec grace 0) as [Hg|Hg].
  - set (e0 := after (now w) (self_exit (child w))).
    destruct (alive_at e0 T) eqn:Hal.
    + rewrite run_terminates by auto. fold T. set (w2 := set_picks _ _).
      rewrite terminating_panics by auto.
      exists [EvSignal T SIGTERM]. split; [|auto].
      unfold signalled. change (exit_at w2) with e0.
      change (now w2) with T. rewrite Hal. cbn -[signals]. sigs.
    + destruct (not_alive_at _ _ Hal) as (x & st & Hx & Hle).
      assert (Hge : now w <= x).
      { unfold e0 in Hx. destruct (self_exit (child w)) as [[d ?]|];
          cbn in Hx; inversion Hx; lia. }
      rewrite run_started by auto. exists []. split; [|auto].
      destruct (running_dead ctx runP grace (started None w) x st)
        as [H|H]; auto; change (now (started None w)) with (now w) in H;
        rewrite H.
      * cbn -[signals]. sigs.
      * set (w2 := set_picks _ _). rewrite terminating_panics by auto.
        unfold signalled. change (exit_at w2) with e0.
        change (now w2) with x. rewrite Hx. cbn -[signals].
        rewrite Z.ltb_irrefl. sigs.
  - destruct (run_observed_ctx ctx runP grace w Hr Hg Hs) as [H _].
    rewrite H. eexists. split; [reflexivity|].
    unfold cycle_result. fold T.
    destruct (alive_at _ T); cbn; auto.
    destruct (alive_at _ (T + grace)); cbn; auto.
Qed.

(** X2. [run] never returns while a child it has started is still
    running.  When it returns, either the launch had failed, and the value
    is the error of [cmd.Start()] and nothing has happened, or the child
    has exited by then and the value is what [cmd.Wait()] reports for its
    exit status: nil exactly for status 0. *)
Theorem run_returns_after_the_exit ctx runP grace w err w' :
  run ctx runP grace w = Ok err w' ->
  (exists msg,
     start_err (child w) = Some msg /\ err = Some (ErrLaunch msg) /\ w' = w) \/
  (start_err (child w) = None /\
   exists x st,
     exit_at w' = Some (x, st) /\ x <= now w' /\ err = wait_result st /\
     (err = None <-> st = Exited 0)).
Proof.
  destruct (Z.leb_spec runP 0) as [Hr|Hr].
  { rewrite run_panics by auto. discriminate. }
  destruct (start_err (child w)) as [msg|] eqn:Hs.
  - rewrite (run_launch_error ctx runP grace w msg) by auto.
    intros H. injection H as <- <-. left. eauto.
  - rewrite run_started by auto. intros H. right. split; [reflexivity|].
    destruct (running_returned ctx _ grace (started None w) err w' eq_refl H)
      as (x & st & H1 & H2 & H3).
    exists x, st. repeat split; auto.
    + intros He. rewrite He in H3. destruct st as [[| |]|]; try discriminate.
      reflexivity.
    + intros ->. exact H3.
Qed.

Lemma run_returns_witness :
  exists x st,
    exit_at (final (run None 10 5 (fresh []))) = Some (x, st) /\
    x <= now (final (run None 10 5 (fresh []))) /\
    Some (ErrExit (Signaled SIGKILL)) = wait_result st /\
    (Some (ErrExit (Signaled SIGKILL)) = None <-> st = Exited 0).
Proof.
  destruct (run_returns_after_the_exit None 10 5 (fresh [])
              (Some (ErrExit (Signaled SIGKILL)))
              (final (run None 10 5 (fresh []))) eq_refl)
    as [(msg & H & _)|(_ & H)]; [discriminate H|exact H].
Defined.

(** X3. When the child exits after the SIGTERM and before the grace ticker
    ticks, because it obeys the signal or for a reason of its own, the
    cycle has sent that one SIGTERM and nothing else: no SIGKILL is sent or
    attempted, and [run] returns what [cmd.Wait()] reports at the instant
    of the exit. *)
Theorem exit_within_the_grace_period ctx runP grace w x st :
  0 < runP -> 0 < grace ->
  start_err (child w) = None ->
  alive_until (child w) (now w) (term_time ctx (now w) runP) ->
  earlier (after (now w) (self_exit (child w)))
          (after (term_time ctx (now w) runP) (on_term (child w))) =
    Some (x, st) ->
  x < term_time ctx (now w) runP + grace ->
  trace (final (run ctx runP grace w)) =
    trace w ++ [EvStart (now w);
                EvSignal (term_time ctx (now w) runP) SIGTERM] /\
  outcome (run ctx runP grace w) = Returned (wait_result st) x.
Proof.
  intros Hr Hg Hs Ha He Hx. rewrite run_terminates by auto.
  set (w2 := set_picks _ _).
  rewrite (terminating_exits grace w2 x st);
    first [exact eq_refl | exact Hg | exact Ha | exact He | exact Hx | idtac].
  cbn. split; [now rewrite <- app_assoc|reflexivity].
Qed.

Lemma exit_within_grace_witness :
  trace (final (run None 10 5 (world0 0 [] (polite 2 (Exited 0))))) =
    [] ++ [EvStart 0; EvSignal (term_time None 0 10) SIGTERM] /\
  outcome (run None 10 5 (world0 0 [] (polite 2 (Exited 0)))) =
    Returned (wait_result (Exited 0)) 12.
Proof.
  apply (exit_within_the_grace_period None 10 5
           (world0 0 [] (polite 2 (Exited 0))) 12 (Exited 0));
    reflexivity.
Defined.

(** X4. With positive periods, what a cycle does to the child and how it
    ends depend on the context, the periods and the child alone.  When the
    command cannot be started, nothing is sent and [run] returns the error
    of [cmd.Start()] at once.  Otherwise the signals and the outcome are
    those of [cycle_result]: nothing if the child exits during the Running
    wait, SIGTERM at its end, SIGKILL one grace period later if the child
    is still there, and the value returned is that of the first exit that
    the child reaches. *)
Theorem cycle_signals_and_outcome ctx runP grace w :
  0 < runP -> 0 < grace ->
  match start_err (child w) with
  | Some msg =>
      signals (final (run ctx runP grace w)) = signals w /\
      outcome (run ctx runP grace w) =
        Returned (Some (ErrLaunch msg)) (now w)
  | None =>
      signals (final (run ctx runP grace w)) =
        signals w ++ fst (cycle_result ctx (now w) runP grace (child w)) /\
      outcome (run ctx runP grace w) =
        snd (cycle_result ctx (now w) runP grace (child w))
  end.
Proof.
  intros Hr Hg. destruct (start_err (child w)) as [msg|] eqn:Hs.
  - rewrite (run_launch_error ctx runP grace w msg) by auto.
    split; reflexivity.
  - exact (run_observed_ctx ctx runP grace w Hr Hg Hs).
Qed.

Lemma cycle_signals_witness :
  signals (final (run (Some 3) 10 5 (world0 0 [] (polite 7 (Exited 0))))) =
    [] ++ [EvSignal 3 SIGTERM; EvSignal 8 SIGKILL] /\
  outcome (run (Some 3) 10 5 (world0 0 [] (polite 7 (Exited 0)))) =
    Returned (Some (ErrExit (Signaled SIGKILL))) 9.
Proof.
  apply (cycle_signals_and_outcome (Some 3) 10 5
           (world0 0 [] (polite 7 (Exited 0)))); reflexivity.
Defined.

(** X5. With a positive grace period, the pseudo-random choice that
    [select] makes when several cases are ready is never seen from outside:
    the same signals reach the child and the cycle ends in the same way,
    with the same value at the same instant, whatever the choices. *)
Theorem select_choices_are_not_observable ctx runP grace w ps ps' :
  0 < grace ->
  signals (final (run ctx runP grace (set_picks ps w))) =
    signals (final (run ctx runP grace (set_picks ps' w))) /\
  outcome (run ctx runP grace (set_picks ps w)) =
    outcome (run ctx runP grace (set_picks ps' w)).
Proof.
  intros Hg. destruct (Z.leb_spec runP 0) as [Hr|Hr].
  { rewrite !run_panics by auto. split; reflexivity. }
  destruct (start_err (child w)) as [msg|] eqn:Hs.
  { rewrite (run_launch_error ctx runP grace (set_picks ps w) msg) by auto.
    rewrite (run_launch_error ctx runP grace (set_picks ps' w) msg) by auto.
    split; reflexivity. }
  destruct (run_observed_ctx ctx runP grace (set_picks ps w) Hr Hg Hs)
    as [H1 H2].
  destruct (run_observed_ctx ctx runP grace (set_picks ps' w) Hr Hg Hs)
    as [H3 H4].
  rewrite H1, H2, H3, H4. split; reflexivity.
Qed.

Lemma select_choices_witness :
  signals (final (run None 10 5
                    (set_picks [0%nat] (world0 0 [] (quick 10 (Exited 3)))))) =
    signals (final (run None 10 5
                    (set_picks [1%nat] (world0 0 [] (quick 10 (Exited 3)))))) /\
  outcome (run None 10 5
             (set_picks [0%nat] (world0 0 [] (quick 10 (Exited 3))))) =
    outcome (run None 10 5
               (set_picks [1%nat] (world0 0 [] (quick 10 (Exited 3))))).
Proof.
  apply (select_choices_are_not_observable None 10 5
           (world0 0 [] (quick 10 (Exited 3))) [0%nat] [1%nat]). lia.
Defined.

(** X6. When the operating system does kill the child, [kd] after the
    SIGKILL at the latest, a cycle with positive periods always returns,
    and no later than run period, grace period and [kd] after it began:
    [run] neither panics nor waits for ever. *)
Theorem cycle_ends_in_bounded_time ctx runP grace w kd kst :
  0 < runP -> 0 < grace ->
  start_err (child w) = None ->
  on_kill (child w) = Some (kd, kst) ->
  exists err t,
    outcome (run ctx runP grace w) = Returned err t /\
    now w <= t <= now w + runP + grace + Z.of_nat kd.
Proof.
  intros Hr Hg Hs Hk.
  destruct (run_observed_ctx ctx runP grace w Hr Hg Hs) as [_ H].
  rewrite H. unfold cycle_result. rewrite Hk.
  pose proof (term_time_bounds ctx (now w) runP Hr) as HT.
  set (T := term_time ctx (now w) runP) in *.
  set (e0 := after (now w) (self_exit (child w))).
  assert (Hge0 : forall x st, e0 = Some (x, st) -> now w <= x).
  { unfold e0. destruct (self_exit (child w)) as [[d ?]|]; cbn; [|discriminate].
    intros x st Hx. inversion Hx. lia. }
  destruct (alive_at e0 T) eqn:Hal.
  - set (e1 := earlier e0 (after T (on_term (child w)))).
    destruct (alive_at e1 (T + grace)) eqn:Hal1; cbn [snd].
    + destruct (earlier e1 _) as [[x st]|] eqn:He.
      * pose proof (earlier_after_ge _ _ _ _ _ Hal1 He).
        pose proof (earlier_after_le _ _ _ _ _ _ He).
        exists (wait_result st), x. cbn. split; [reflexivity|lia].
      * exfalso. exact (earlier_after_some _ _ _ _ He).
    + destruct (not_alive_at _ _ Hal1) as (x & st & Hx & Hle).
      pose proof (earlier_after_ge _ _ _ _ _ Hal Hx).
      rewrite Hx. exists (wait_result st), x. cbn. split; [reflexivity|lia].
  - destruct (not_alive_at _ _ Hal) as (x & st & Hx & Hle).
    pose proof (Hge0 _ _ Hx). rewrite Hx. cbn.
    exists (wait_result st), x. split; [reflexivity|lia].
Qed.

Lemma cycle_bound_witness :
  exists err t,
    outcome (run None 10 5 (fresh [])) = Returned err t /\
    now (fresh []) <= t <= now (fresh []) + 10 + 5 + Z.of_nat 1.
Proof.
  apply (cycle_ends_in_bounded_time None 10 5 (fresh []) 1%nat
           (Signaled SIGKILL)); try reflexivity.
Defined.

Lemma earlier_none a b : earlier a b = None <-> a = None /\ b = None.
Proof.
  destruct a as [[ta sa]|], b as [[tb sb]|]; cbn;
    try destruct (tb <? ta); split; intros H; try discriminate;
    try (destruct H; discriminate); auto.
Qed.

Lemma finish_blocked e : finish e = Blocked <-> e = None.
Proof. destruct e as [[x st]|]; cbn; split; intros H; auto; discriminate. Qed.

Lemma finish_not_panicked e : finish e <> Panicked.
Proof. destruct e as [[x st]|]; discriminate. Qed.

Lemma after_none t r : after t r = None <-> r = None.
Proof. destruct r as [[d s]|]; cbn; split; intros H; auto; discriminate. Qed.

(** X14. With positive periods [run] never panics, and it waits for ever
    in one case only: the command has started, the child never exits by
    itself, ignores SIGTERM, and cannot be killed. *)
Theorem cycle_hangs_only_on_an_unkillable_child ctx runP grace w :
  0 < runP -> 0 < grace ->
  outcome (run ctx runP grace w) <> Panicked /\
  (outcome (run ctx runP grace w) = Blocked <->
   start_err (child w) = None /\ self_exit (child w) = None /\
   on_term (child w) = None /\ on_kill (child w) = None).
Proof.
  intros Hr Hg. destruct (start_err (child w)) as [msg|] eqn:Hs.
  { rewrite (run_launch_error ctx runP grace w msg) by auto. cbn.
    split; [discriminate|]. split; [discriminate|]. intros [H _]. discriminate. }
  destruct (run_observed_ctx ctx runP grace w Hr Hg Hs) as [_ H].
  rewrite H. unfold cycle_result.
  set (T := term_time ctx (now w) runP).
  set (e0 := after (now w) (self_exit (child w))).
  set (e1 := earlier e0 (after T (on_term (child w)))).
  destruct (alive_at e0 T) eqn:Hal; [destruct (alive_at e1 (T + grace)) eqn:Hal1|];
    cbn [snd]; (split; [apply finish_not_panicked|]); rewrite finish_blocked.
  - unfold e1, e0. rewrite !earlier_none, !after_none. tauto.
  - destruct (not_alive_at _ _ Hal1) as (x & st & Hx & _). split.
    + rewrite Hx. discriminate.
    + intros (_ & H1 & H2 & _). unfold e1, e0 in Hx.
      rewrite H1, H2 in Hx. discriminate.
  - destruct (not_alive_at _ _ Hal) as (x & st & Hx & _). split.
    + rewrite Hx. discriminate.
    + intros (_ & H1 & _). unfold e0 in Hx. rewrite H1 in Hx. discriminate.
Qed.

Lemma cycle_hangs_witness :
  outcome (run None 10 5 (world0 0 [] unkillable)) <> Panicked /\
  (outcome (run None 10 5 (world0 0 [] unkillable)) = Blocked <->
   start_err unkillable = None /\ self_exit unkillable = None /\
   on_term unkillable = None /\ on_kill unkillable = None).
Proof.
  apply (cycle_hangs_only_on_an_unkillable_child None 10 5
           (world0 0 [] unkillable)); reflexivity.
Defined.

(** ** The restart loop *)

(** A cycle entered with the context done, for a child that obeys
    SIGTERM within the grace period. *)
Lemma run_cancelled_obeyed ctx runP grace w d st :
  0 < runP -> 0 < grace ->
  ctx_done ctx (now w) = true ->
  start_err (child w) = None ->
  self_exit (child w) = None ->
  on_term (child w) = Some (d, st) ->
  Z.of_nat d < grace ->
  exists w',
    run ctx runP grace w = Ok (wait_result st) w' /\
    now w' = now w + Z.of_nat d /\
    trace w' = trace w ++ [EvStart (now w); EvSignal (now w) SIGTERM].
Proof.
  intros Hr Hg Hc Hs He Ht Hd.
  assert (HT : term_time ctx (now w) runP = now w).
  { unfold term_time. destruct ctx as [c|]; [|discriminate].
    cbn in Hc. apply Z.leb_le in Hc. lia. }
  rewrite run_terminates; auto.
  2:{ unfold alive_until. now rewrite He. }
  rewrite HT. set (w2 := set_picks _ _).
  rewrite (terminating_exits grace w2 (now w + Z.of_nat d) st);
    first [exact eq_refl | exact Hg | cbn; lia | idtac].
  - eexists. split; [reflexivity|]. cbn. split; [reflexivity|].
    now rewrite <- app_assoc.
  - cbn. now rewrite He.
  - cbn. rewrite He, Ht. reflexivity.
Qed.

(** X7. The way the supervisor shuts down: once the context is cancelled,
    a cycle asks its child to exit as soon as it has started it, and when
    the child then ends within the grace period with anything but status
    0, as a program killed by SIGTERM does, [main] ends the supervisor
    with [log.Fatal], status 1, without SIGKILL and without another
    launch. *)
Theorem cancelled_supervisor_stops_with_its_child
    ctx runF graceF c rest w d st :
  0 < runF -> 0 < graceF ->
  ctx_done ctx (now w) = true ->
  start_err c = None ->
  self_exit c = None ->
  on_term c = Some (d, st) ->
  Z.of_nat d < graceF ->
  st <> Exited 0 ->
  exists w',
    main_loop ctx runF graceF (c :: rest) w = Exit 1 (ErrExit st) w' /\
    trace w' =
      trace w ++ [EvStart (now w); EvSignal (now w) SIGTERM;
                  EvFatal (now w + Z.of_nat d) (ErrExit st)].
Proof.
  intros Hr Hg Hc Hs He Ht Hd Hst. cbn [main_loop].
  destruct (run_cancelled_obeyed ctx runF graceF (set_child c w) d st)
    as (w1 & Hrun & Hn & Htr); auto.
  assert (Hw : wait_result st = Some (ErrExit st)).
  { destruct st as [[| |]|]; try reflexivity. contradiction. }
  rewrite Hrun, Hw. eexists. split; [reflexivity|].
  cbn. rewrite Htr, Hn, <- app_assoc. reflexivity.
Qed.

Lemma cancelled_supervisor_witness :
  exists w',
    main_loop (Some 0) 10 5 [polite 2 (Signaled SIGTERM); stubborn] (fresh []) =
      Exit 1 (ErrExit (Signaled SIGTERM)) w' /\
    trace w' =
      [] ++ [EvStart 0; EvSignal 0 SIGTERM;
             EvFatal (0 + Z.of_nat 2) (ErrExit (Signaled SIGTERM))].
Proof.
  apply (cancelled_supervisor_stops_with_its_child (Some 0) 10 5
           (polite 2 (Signaled SIGTERM)) [stubborn] (fresh []) 2%nat
           (Signaled SIGTERM)); try reflexivity.
  discriminate.
Defined.

Lemma starts_emit_start t w : starts (emit (EvStart t) w) = S (starts w).
Proof.
  unfold starts. cbn. rewrite filter_app, length_app. cbn. lia.
Qed.

Lemma starts_emit_other e w :
  is_start e = false -> starts (emit e w) = starts w.
Proof.
  intros H. unfold starts. cbn. rewrite filter_app, length_app. cbn.
  rewrite H. cbn. lia.
Qed.

(** X8. The loop never looks at the context: when the child obeys SIGTERM
    and exits with status 0, a cancelled supervisor does not stop.  Each
    turn starts the child again and asks it to exit at once, for as many
    turns as one cares to watch. *)
Theorem cancelled_supervisor_restarts_a_clean_child
    ctx runF graceF c n w d :
  0 < runF -> 0 < graceF ->
  ctx_done ctx (now w) = true ->
  start_err c = None ->
  self_exit c = None ->
  on_term c = Some (d, Exited 0) ->
  Z.of_nat d < graceF ->
  exists w',
    main_loop ctx runF graceF (repeat c n) w = Loop w' /\
    starts w' = (starts w + n)%nat /\
    now w' = now w + Z.of_nat n * Z.of_nat d.
Proof.
  intros Hr Hg Hc Hs He Ht Hd. revert w Hc.
  induction n as [|n IH]; intros w Hc.
  - exists w. cbn. repeat split; lia.
  - cbn [repeat main_loop].
    destruct (run_cancelled_obeyed ctx runF graceF (set_child c w) d (Exited 0))
      as (w1 & Hrun & Hn1 & Htr); auto.
    rewrite Hrun. cbn [wait_result]. cbn [now set_child trace] in Hn1, Htr.
    assert (Hs1 : starts w1 = S (starts w)).
    { unfold starts. rewrite Htr, filter_app, length_app. cbn. lia. }
    destruct (IH w1) as (w' & H1 & H2 & H3).
    { eapply ctx_done_later; [exact Hc|lia]. }
    exists w'. split; [exact H1|]. split; lia.
Qed.

Lemma cancelled_restarts_witness :
  exists w',
    main_loop (Some 0) 10 5 (repeat (polite 2 (Exited 0)) 3) (fresh []) =
      Loop w' /\
    starts w' = (starts (fresh []) + 3)%nat /\
    now w' = now (fresh []) + Z.of_nat 3 * Z.of_nat 2.
Proof.
  apply (cancelled_supervisor_restarts_a_clean_child (Some 0) 10 5
           (polite 2 (Exited 0)) 3 (fresh []) 2%nat); reflexivity.
Defined.

(** *** Counting the children *)

Lemma starts_settle t w : starts (settle t w) = starts w.
Proof.
  unfold settle. destruct (watch w); auto. destruct (_ <=? _); auto.
  destruct (alive_at _ _); auto. unfold deliver.
  now rewrite starts_emit_other.
Qed.

Lemma starts_expire w : starts (expire w) = starts w.
Proof. unfold expire. destruct (watch w); auto. apply starts_settle. Qed.

Lemma starts_wake t w : starts (wake t w) = starts w.
Proof. unfold wake. now rewrite starts_settle. Qed.

Lemma starts_nothing_ret {A} (a : A) : starts_nothing (ret a).
Proof. intros w. reflexivity. Qed.

Lemma starts_nothing_bind {A B} (m : M A) (k : A -> M B) :
  starts_nothing m -> (forall a, starts_nothing (k a)) ->
  starts_nothing (bind m k).
Proof.
  intros Hm Hk w. unfold bind. specialize (Hm w).
  destruct (m w) as [a w'| |]; cbn in *; auto.
  now rewrite Hk.
Qed.

Lemma starts_nothing_NewTicker d : starts_nothing (NewTicker d).
Proof. intros w. unfold NewTicker. destruct (d <=? 0); reflexivity. Qed.

Lemma starts_nothing_log msg : starts_nothing (log_Printf msg).
Proof. intros w. cbn [final log_Printf]. now rewrite starts_emit_other. Qed.

Lemma starts_nothing_Process_Signal s : starts_nothing (Process_Signal s).
Proof.
  intros w. unfold Process_Signal.
  destruct (alive_at _ _); cbn [final]; [|apply starts_settle].
  unfold deliver. rewrite starts_emit_other by reflexivity.
  change (starts (set_exit ?e ?v)) with (starts v). apply starts_settle.
Qed.

Lemma starts_nothing_select cs : starts_nothing (select cs).
Proof.
  intros w. unfold select. destruct (first_ready w cs) as [t|].
  - unfold choose. destruct (filter _ _); cbn [final].
    + now rewrite starts_expire, starts_wake.
    + change (starts (set_picks ?p ?v)) with (starts v). apply starts_wake.
  - cbn [final]. apply starts_expire.
Qed.

Lemma starts_nothing_recv_done : starts_nothing recv_done.
Proof.
  intros w. unfold recv_done.
  pose proof (starts_nothing_select [CaseDone] w) as H.
  destruct (select _ w) as [[]| |]; exact H.
Qed.

Lemma starts_nothing_signal_or_log s msg :
  starts_nothing (signal_or_log s msg).
Proof.
  apply starts_nothing_bind; [apply starts_nothing_Process_Signal|].
  intros [e|]; [apply starts_nothing_log|apply starts_nothing_ret].
Qed.

Lemma starts_nothing_killing : starts_nothing killing.
Proof.
  apply starts_nothing_bind; [apply starts_nothing_signal_or_log|].
  intros _. apply starts_nothing_recv_done.
Qed.

Lemma starts_nothing_terminating grace : starts_nothing (terminating grace).
Proof.
  apply starts_nothing_bind; [apply starts_nothing_signal_or_log|]. intros _.
  apply starts_nothing_bind; [apply starts_nothing_NewTicker|]. intros tk.
  apply starts_nothing_bind; [apply starts_nothing_select|].
  intros [|e|]; try apply starts_nothing_killing. apply starts_nothing_ret.
Qed.

Lemma starts_nothing_running ctx tk grace :
  starts_nothing (running ctx tk grace).
Proof.
  apply starts_nothing_bind; [apply starts_nothing_select|].
  intros [|e|]; try apply starts_nothing_terminating.
  apply starts_nothing_ret.
Qed.

(** One cycle starts one child at most, and exactly one when it returns
    nil. *)
Lemma starts_run ctx runP grace w :
  (starts (final (run ctx runP grace w)) <= S (starts w))%nat /\
  forall w', run ctx runP grace w = Ok None w' -> starts w' = S (starts w).
Proof.
  unfold run, bind, NewTicker. destruct (runP <=? 0).
  { cbn. split; [lia|discriminate]. }
  unfold cmd_Start. destruct (start_err (child w)).
  { cbn. split; [lia|discriminate]. }
  pose proof (starts_nothing_running ctx (now w + runP) grace (started None w))
    as H.
  unfold started in H at 2. rewrite starts_emit_start in H.
  change (starts (set_watch ?k ?v)) with (starts v) in H.
  change (starts (set_exit ?k ?v)) with (starts v) in H.
  split; [lia|]. intros w' Hr. rewrite Hr in H. exact H.
Qed.

(** X9. The supervisor starts at most one child in each turn of its loop,
    and exactly one in each turn after which the loop goes on: whatever
    the children do, there are never more starts than turns. *)
Theorem one_child_per_turn ctx runF graceF launches w :
  (starts (main_world (main_loop ctx runF graceF launches w)) <=
     starts w + List.length launches)%nat /\
  forall w',
    main_loop ctx runF graceF launches w = Loop w' ->
    starts w' = (starts w + List.length launches)%nat.
Proof.
  revert w. induction launches as [|c rest IH]; intros w.
  - cbn. split; [lia|]. intros w' H. injection H as <-. lia.
  - cbn [main_loop List.length].
    destruct (starts_run ctx runF graceF (set_child c w)) as [H1 H2].
    change (starts (set_child c w)) with (starts w) in *.
    destruct (run ctx runF graceF (set_child c w)) as [[e|] w1|msg w1|w1];
      cbn [final main_world] in *.
    + split; [|discriminate]. rewrite starts_emit_other by reflexivity. lia.
    + specialize (H2 w1 eq_refl). destruct (IH w1) as [H3 H4].
      split; [lia|]. intros w' H. rewrite (H4 w' H). lia.
    + split; [lia|discriminate].
    + split; [lia|discriminate].
Qed.

Lemma one_child_per_turn_witness :
  (starts (main_world (main_loop None 10 5
                         [quick 4 (Exited 0); quick 4 (Exited 1); stubborn]
                         (fresh []))) <=
     starts (fresh []) + 3)%nat /\
  starts (final (run None 10 5 (set_child (quick 4 (Exited 0)) (fresh [])))) =
    (starts (fresh []) + 1)%nat.
Proof.
  split.
  - apply (proj1 (one_child_per_turn None 10 5
                    [quick 4 (Exited 0); quick 4 (Exited 1); stubborn]
                    (fresh []))).
  - apply (proj2 (one_child_per_turn None 10 5 [quick 4 (Exited 0)]
                    (fresh []))
             (final (run None 10 5 (set_child (quick 4 (Exited 0)) (fresh []))))).
    reflexivity.
Defined.

(** ** The earlier revision *)



Lemma cycle_v1_started mainCtx runF graceF w :
  0 < runF ->
  ctx_done (min_opt mainCtx (Some (now w + wrap64 (runF + graceF)))) (now w) =
    false ->
  start_err (child w) = None ->
  cycle_v1 mainCtx runF graceF w =
    match select [CaseDone; CaseTick (now w + runF)]
            (started (min_opt mainCtx (Some (now w + wrap64 (runF + graceF))))
                     (emit (EvLog (now w) "Starting...") w)) with
    | Ok (SelDone err) w' => Ok err w'
    | Ok _ w' => (signal_or_log SIGTERM msg_term ;;; recv_done) w'
    | Panic msg w' => Panic msg w'
    | Block w' => Block w'
    end.
Proof.
  intros Hr Hc Hs. unfold cycle_v1, bind, log_Printf, WithTimeout.
  cbn [now emit]. unfold run_v1, bind, NewTicker.
  destruct (Z.leb_spec runF 0); [lia|]. unfold cmd_Start_ctx.
  cbn [now emit child]. rewrite Hs, Hc.
  destruct (select _ _) as [[]| |]; reflexivity.
Qed.






(** X12. In the earlier revision a cancellation that comes while the
    child runs is not a request: the watcher of [exec.CommandContext]
    sends SIGKILL at that very instant.  When the child dies of it before
    the run ticker ticks, the cycle has sent no SIGTERM at all, and [run]
    returns what [cmd.Wait()] reports for the killed child. *)
Theorem v1_cancellation_kills_at_once c runF graceF w kd kst :
  0 <= graceF -> runF + graceF < 2 ^ 63 ->
  now w < c ->
  c + Z.of_nat kd < now w + runF ->
  start_err (child w) = None ->
  alive_until (child w) (now w) (c + Z.of_nat kd) ->
  on_kill (child w) = Some (kd, kst) ->
  trace (final (cycle_v1 (Some c) runF graceF w)) =
    trace w ++ [EvLog (now w) "Starting..."; EvStart (now w);
                EvSignal c SIGKILL] /\
  outcome (cycle_v1 (Some c) runF graceF w) =
    Returned (wait_result kst) (c + Z.of_nat kd).
Proof.
  intros Hg Hsum Hc Hk Hs Ha Hkill.
  assert (Hr : 0 < runF) by lia.
  assert (Hm : min_opt (Some c) (Some (now w + wrap64 (runF + graceF))) =
               Some c).
  { rewrite wrap64_small by lia. cbn. f_equal. lia. }
  rewrite cycle_v1_started; auto; rewrite Hm.
  2:{ cbn. apply Z.leb_gt. lia. }
  set (tk := now w + runF). set (w1 := started (Some c) _).
  set (e0 := after (now w) (self_exit (child w))).
  assert (Hw1 : watch w1 = Some c) by reflexivity.
  assert (Hal : alive_at (exit_at w1) c = true).
  { change (exit_at w1) with e0. eapply alive_at_mono; [exact Ha|lia]. }
  assert (Hp : projected_exit w1 = Some (c + Z.of_nat kd, kst)).
  { rewrite (projected_alive c w1 Hw1 Hal).
    change (exit_at w1) with e0. change (child w1) with (child w).
    rewrite Hkill. cbn [after]. unfold alive_until in Ha. fold e0 in Ha.
    destruct e0 as [[a ast]|]; cbn in *; [|reflexivity].
    now rewrite Ha. }
  assert (Hf : first_ready w1 [CaseDone; CaseTick tk] =
               Some (c + Z.of_nat kd)).
  { cbn [first_ready fold_right ready_time]. rewrite Hp. cbn.
    f_equal. subst tk. lia. }
  destruct (select_cases _ _ _ Hf) as
    [(c' & Hin & _)
    |[(x & st & Hin & Hp' & Hle & ->)|(tk' & Hin & Hle & ->)]].
  - in_cases Hin.
  - rewrite Hp in Hp'. injection Hp' as <- <-.
    rewrite (wake_kills c _ w1 Hw1); [|cbn; lia|exact Hal].
    cbn. split; [now rewrite <- !app_assoc|f_equal; lia].
  - in_tick Hin. cbn in Hle. subst tk. lia.
Qed.

Lemma v1_cancellation_witness :
  trace (final (cycle_v1 (Some 3) 10 5 (fresh []))) =
    [] ++ [EvLog 0 "Starting..."; EvStart 0; EvSignal 3 SIGKILL] /\
  outcome (cycle_v1 (Some 3) 10 5 (fresh [])) =
    Returned (wait_result (Signaled SIGKILL)) (3 + Z.of_nat 1).
Proof.
  apply (v1_cancellation_kills_at_once 3 10 5 (fresh []) 1%nat
           (Signaled SIGKILL)); try reflexivity; cbn; lia.
Defined.

(** ** The relay and the signals it is given *)

Lemma relay_count_step a st n :
  (taken st + List.length (Relay.sigchan st) <= n)%nat ->
  (List.length (Relay.sigchan st) <= 1)%nat ->
  (taken (Relay.step a st) + List.length (Relay.sigchan (Relay.step a st)) <=
     n + notified [a])%nat /\
  (List.length (Relay.sigchan (Relay.step a st)) <= 1)%nat.
Proof.
  intros H1 H2. destruct st as [ch pc ca ph lg ex].
  unfold taken in *. cbn in *.
  destruct a as [s| |p|]; cbn.
  - unfold Relay.notify; cbn.
    destruct ex as [z|], ch as [|s0 q], (Relay.registered s); cbn in *; lia.
  - unfold Relay.relay_step; cbn.
    destruct ex as [z|], ch as [|s0 q], pc; cbn in *; lia.
  - unfold Relay.main_goto; cbn. destruct ex as [z|]; cbn in *; lia.
  - unfold Relay.main_fatal; cbn.
    destruct ex as [z|], pc; cbn in *; lia.
Qed.

Lemma notified_cons a acts :
  notified (a :: acts) = (notified [a] + notified acts)%nat.
Proof.
  destruct a as [s| |p|]; cbn; auto. destruct (Relay.registered s); auto.
Qed.

Lemma relay_count acts st n :
  (taken st + List.length (Relay.sigchan st) <= n)%nat ->
  (List.length (Relay.sigchan st) <= 1)%nat ->
  (taken (Relay.exec acts st) +
     List.length (Relay.sigchan (Relay.exec acts st)) <=
     n + notified acts)%nat /\
  (List.length (Relay.sigchan (Relay.exec acts st)) <= 1)%nat.
Proof.
  revert st n. induction acts as [|a acts IH]; intros st n H1 H2.
  - cbn. split; lia.
  - destruct (relay_count_step a st n H1 H2) as [H3 H4].
    destruct (IH (Relay.step a st) (n + notified [a])%nat H3 H4) as [H5 H6].
    rewrite notified_cons.
    change (Relay.exec (a :: acts) st) with (Relay.exec acts (Relay.step a st)).
    split; [lia|exact H6].
Qed.

Lemma taken_second st :
  Relay.pc st = Relay.AwaitSecond -> (1 <= taken st)%nat.
Proof.
  intros H. unfold taken. rewrite H.
  destruct (Relay.exited st) as [[|[[]|[]|]|]|]; lia.
Qed.

(** X13. The relay acts on signals only: in every schedule of the
    supervisor, the context is cancelled only if at least one of the
    signals named in [signal.Notify] has been delivered, the process ends
    through the panic of the relay only if at least two have, and the
    channel never holds more than the one signal it has room for. *)
Theorem relay_needs_one_signal_to_cancel_two_to_exit acts :
  (Relay.cancelled (Relay.exec acts Relay.init) = true ->
     (1 <= notified acts)%nat) /\
  (Relay.exited (Relay.exec acts Relay.init) = Some 2 ->
     (2 <= notified acts)%nat) /\
  (List.length (Relay.sigchan (Relay.exec acts Relay.init)) <= 1)%nat.
Proof.
  destruct (relay_count acts Relay.init 0) as [H1 H2]; [cbn; lia|cbn; lia|].
  pose proof (relay_invariant acts) as [H3 H4]. cbv zeta in *.
  set (st := Relay.exec acts Relay.init) in *.
  split; [|split; [|exact H2]].
  - intros Hc. destruct (Relay.pc st) eqn:Hpc.
    + destruct (H3 eq_refl) as [Hf _]. rewrite Hf in Hc. discriminate.
    + pose proof (taken_second st Hpc). lia.
  - intros He. unfold taken in H1.
    destruct (Relay.pc st).
    + destruct (H3 eq_refl) as [_ Hf]. contradiction.
    + rewrite He in H1. cbn in H1. lia.
Qed.

Lemma relay_needs_signals_witness :
  (1 <= notified two_signals)%nat /\
  (2 <= notified two_signals)%nat /\
  (List.length (Relay.sigchan (Relay.exec two_signals Relay.init)) <= 1)%nat.
Proof.
  destruct (relay_needs_one_signal_to_cancel_two_to_exit two_signals)
    as (H1 & H2 & H3).
  split; [apply H1; reflexivity|]. split; [apply H2; reflexivity|exact H3].
Defined.
